(** * emiss_downscale: spatial downscaling of gridded emissions

    A shallow embedding of [downscaler/allocate/allocate.py],
    [downscaler/utils/xarray.py] and [downscaler/utils/cmaq.py], and the
    properties of the downscaling pipeline proved over it.

    Conventions of the embedding.
    - Array values are exact rationals extended with the IEEE special values
      ([PosInf], [NegInf], [NaN]); rounding, overflow and the sign of zero are
      not modelled.  Coordinates and projection parameters are exact rationals.
    - A [DataArray] carries the two spatial axes only: the non-spatial axes
      (time, layer) are carried through pointwise by every operation used here.
      Attributes (such as the descriptive "COARSEN" note) are not modelled.
    - Python objects live in a heap and are passed by reference, exceptions are
      results, and every in-place slab assignment is recorded in a trace. *)

From Stdlib Require Import ZArith QArith Qcanon Qround List String Lia.
From stdpp Require Import base list strings numbers sorting.

Open Scope Qc_scope.
Open Scope nat_scope.

(** ** Array values: rationals with the IEEE special values *)

Inductive num := Finite (q : Qc) | PosInf | NegInf | NaN.

#[global] Instance num_eq_dec : EqDecision num.
Proof. solve_decision. Defined.

#[global] Instance num_inhabited : Inhabited num := populate NaN.

#[global] Instance Qc_inhabited : Inhabited Qc := populate 0%Qc.

Definition isnan (v : num) : bool :=
  match v with NaN => true | _ => false end.

Definition isinf (v : num) : bool :=
  match v with PosInf | NegInf => true | _ => false end.

Definition num_opp (v : num) : num :=
  match v with
  | Finite q => Finite (- q)%Qc
  | PosInf => NegInf
  | NegInf => PosInf
  | NaN => NaN
  end.

(** The infinity carrying the sign of [q]; a zero counts as positive. *)
Definition inf_like (q : Qc) (v : num) : num :=
  if decide (q < 0)%Qc then num_opp v else v.

Definition num_add (a b : num) : num :=
  match a, b with
  | NaN, _ | _, NaN => NaN
  | Finite p, Finite q => Finite (p + q)%Qc
  | PosInf, NegInf | NegInf, PosInf => NaN
  | PosInf, _ | _, PosInf => PosInf
  | NegInf, _ | _, NegInf => NegInf
  end.

Definition num_mul (a b : num) : num :=
  match a, b with
  | NaN, _ | _, NaN => NaN
  | Finite p, Finite q => Finite (p * q)%Qc
  | Finite p, (PosInf | NegInf) => if decide (p = 0)%Qc then NaN else inf_like p b
  | (PosInf | NegInf), Finite q => if decide (q = 0)%Qc then NaN else inf_like q a
  | PosInf, PosInf | NegInf, NegInf => PosInf
  | PosInf, NegInf | NegInf, PosInf => NegInf
  end.

Definition num_div (a b : num) : num :=
  match a, b with
  | NaN, _ | _, NaN => NaN
  | Finite p, Finite q =>
      if decide (q = 0)%Qc
      then (if decide (p = 0)%Qc then NaN else inf_like p PosInf)
      else Finite (p / q)%Qc
  | Finite _, (PosInf | NegInf) => Finite 0%Qc
  | (PosInf | NegInf), Finite q => inf_like q a
  | (PosInf | NegInf), (PosInf | NegInf) => NaN
  end.

(** ** The Python runtime: dictionaries, exceptions, heap and trace *)

(** A [dict] keeps its keys in insertion order. *)
Definition dict (V : Type) : Type := list (string * V).

Definition dict_keys {V} (d : dict V) : list string := d.*1.

Fixpoint dict_lookup {V} (d : dict V) (key : string) : option V :=
  match d with
  | [] => None
  | (k, v) :: d' => if decide (k = key) then Some v else dict_lookup d' key
  end.

(** [d[key] = v]: overwrite in place, or append a new key. *)
Fixpoint dict_setitem {V} (d : dict V) (key : string) (v : V) : dict V :=
  match d with
  | [] => [(key, v)]
  | (k, w) :: d' =>
      if decide (k = key) then (k, v) :: d' else (k, w) :: dict_setitem d' key v
  end.

(** [dict.update]: later entries win, new keys are appended. *)
Definition dict_update {V} (d upd : dict V) : dict V :=
  foldl (λ acc kv, dict_setitem acc kv.1 kv.2) d upd.

(** Values of projection parameters and of dataset attributes. *)
Inductive pval := PStr (s : string) | PNum (q : Qc).

#[global] Instance pval_eq_dec : EqDecision pval.
Proof. solve_decision. Defined.

Inductive axis := X | Y.

#[global] Instance axis_eq_dec : EqDecision axis.
Proof. solve_decision. Defined.

Definition axis_name (ax : axis) : string :=
  match ax with X => "x" | Y => "y" end.

Inductive value_error :=
  | IncompatibleMapProjections (bad_vals : dict (pval * pval))
  | NotAnOddInteger (gridfactor : Z)
  | WindowNotPositive (window : Z)
  | CoarsenNotExact (size : nat) (window : Z)
  | TooFewEntries
  | ConflictingSizes
  | InvalidProjection (proj_type : string).

Inductive type_error :=
  | UnexpectedKeyword (fn kw : string)
  | MissingArgument (fn name : string)
  | BadOperand.

(** [LabelError] is the [KeyError] of a label missing from an index;
    [Dangling] (a reference outside the heap) has no Python counterpart and is
    never raised from a state that holds the objects it is asked for. *)
Inductive exn :=
  | ValueError (m : value_error)
  | KeyError (key : string)
  | LabelError (label : Qc)
  | IndexError
  | TypeError (m : type_error)
  | ZeroDivisionError
  | NotImplementedError (what : string)
  | FileNotFoundError (path : string)
  | Dangling.

#[global] Instance value_error_eq_dec : EqDecision value_error.
Proof. solve_decision. Defined.

#[global] Instance type_error_eq_dec : EqDecision type_error.
Proof. solve_decision. Defined.

#[global] Instance exn_eq_dec : EqDecision exn.
Proof. solve_decision. Defined.

Inductive result (A : Type) := Ok (a : A) | Raise (e : exn).
Arguments Ok {A} a.
Arguments Raise {A} e.

#[global] Instance result_eq_dec {A} `{EqDecision A} : EqDecision (result A).
Proof. solve_decision. Defined.

#[global] Instance result_ret : MRet result := λ A a, Ok a.
#[global] Instance result_bind : MBind result := λ A B f m,
  match m with Ok a => f a | Raise e => Raise e end.

Definition dict_getitem {V} (d : dict V) (key : string) : result V :=
  match dict_lookup d key with Some v => Ok v | None => Raise (KeyError key) end.

(** [l[i]] with Python's negative indices. *)
Definition py_index {A} (l : list A) (i : Z) : result A :=
  let n := Z.of_nat (length l) in
  let j := if (i <? 0)%Z then (n + i)%Z else i in
  if ((0 <=? j) && (j <? n))%Z
  then match l !! Z.to_nat j with Some a => Ok a | None => Raise IndexError end
  else Raise IndexError.

(** Arithmetic of a number with a parameter value; a string operand is a
    [TypeError]. *)
Definition as_number (v : pval) : result Qc :=
  match v with PNum q => Ok q | PStr _ => Raise (TypeError BadOperand) end.

(** ** xarray: labelled two-dimensional arrays *)

(** [values g !! i !! j] is the value at [(coord_x g !! i, coord_y g !! j)]. *)
Record DataArray := mkDataArray {
  coord_x : list Qc;
  coord_y : list Qc;
  values : list (list num)
}.

#[global] Instance DataArray_eq_dec : EqDecision DataArray.
Proof. solve_decision. Defined.

Definition coord (g : DataArray) (ax : axis) : list Qc :=
  match ax with X => coord_x g | Y => coord_y g end.

Definition cell (g : DataArray) (i j : nat) : num :=
  (values g !!! i) !!! j.

(** A one-dimensional selection along the other axis, with its coordinate. *)
Record Slab := mkSlab { slab_coord : list Qc; slab_values : list num }.

(** Position of a label in an index (pandas [get_loc] on a unique index). *)
Fixpoint index_of (c : list Qc) (label : Qc) : option nat :=
  match c with
  | [] => None
  | q :: c' => if decide (q = label) then Some 0 else S <$> index_of c' label
  end.

Definition get_loc (c : list Qc) (label : Qc) : result nat :=
  match index_of c label with Some p => Ok p | None => Raise (LabelError label) end.

(** [g.loc[dict(ax=label)]] *)
Definition sel (g : DataArray) (ax : axis) (label : Qc) : result Slab :=
  match ax with
  | X => p ← get_loc (coord_x g) label;
         Ok (mkSlab (coord_y g) (values g !!! p))
  | Y => q ← get_loc (coord_y g) label;
         Ok (mkSlab (coord_x g) (fmap (λ col, col !!! q) (values g)))
  end.

(** [g.loc[dict(ax=label)] = v]: the label is located first, then the
    coordinate of the assigned value is checked against the target's, then the
    slab is written.  Returns the position written and the updated array. *)
Definition loc_assign (g : DataArray) (ax : axis) (label : Qc) (v : Slab)
  : result (nat * DataArray) :=
  match ax with
  | X => p ← get_loc (coord_x g) label;
         if decide (slab_coord v = coord_y g)
         then Ok (p, mkDataArray (coord_x g) (coord_y g)
                       (<[p := slab_values v]> (values g)))
         else Raise IndexError
  | Y => q ← get_loc (coord_y g) label;
         if decide (slab_coord v = coord_x g)
         then Ok (q, mkDataArray (coord_x g) (coord_y g)
                       (zip_with (λ col e, <[q := e]> col) (values g) (slab_values v)))
         else Raise IndexError
  end.

(** *** coarsen(...).reduce(agg) *)

(** Consecutive windows of [k] elements ([length l / k] of them). *)
Definition blocks {A} (k : nat) (l : list A) : list (list A) :=
  fmap (λ I, take k (drop (I * k) l)) (seq 0 (length l / k)).

Definition qsum (w : list Qc) : Qc := foldr Qcplus 0%Qc w.

(** The coordinate of a window is the mean of its coordinates. *)
Definition window_mean (w : list Qc) : Qc :=
  (qsum w / Qc_of_Z (Z.of_nat (length w)))%Qc.

(** The values of window [J] along y of a group of [k] columns, flattened. *)
Definition block_values (k : nat) (cols : list (list num)) (J : nat) : list num :=
  concat (fmap (λ col, take k (drop (J * k) col)) cols).

(** [g.coarsen(x=window, y=window).reduce(agg)] with xarray's defaults
    [boundary="exact"] and [coord_func="mean"]. *)
Definition coarsen_reduce (g : DataArray) (window : Z) (agg : list num → num)
  : result DataArray :=
  if (window <=? 0)%Z then Raise (ValueError (WindowNotPositive window)) else
  let k := Z.to_nat window in
  let nx := length (coord_x g) in
  let ny := length (coord_y g) in
  if decide (nx `mod` k = 0) then
    if decide (ny `mod` k = 0) then
      Ok (mkDataArray
            (fmap window_mean (blocks k (coord_x g)))
            (fmap window_mean (blocks k (coord_y g)))
            (fmap (λ cols, fmap (λ J, agg (block_values k cols J)) (seq 0 (ny / k)))
                 (blocks k (values g))))
    else Raise (ValueError (CoarsenNotExact ny window))
  else Raise (ValueError (CoarsenNotExact nx window)).

(** [np.sum] and [np.mean] over the values of a window. *)
Definition np_sum (l : list num) : num := foldr num_add (Finite 0%Qc) l.

Definition np_mean (l : list num) : num :=
  num_div (np_sum l) (Finite (Qc_of_Z (Z.of_nat (length l)))).

(** *** interp_like(other, method="nearest") *)

(** scipy's nearest lookup: the breakpoints are the midpoints of consecutive
    sample positions ([x_bds = x / 2; x_bds[1:] + x_bds[:-1]]), and the index is
    the number of breakpoints strictly below the target (a tie goes to the lower
    sample). *)
Definition midpoints (c : list Qc) : list Qc :=
  zip_with (λ lo hi, hi / 2 + lo / 2)%Qc c (tail c).

(** [np.searchsorted(a, v, side="left")] on a sorted array. *)
Fixpoint searchsorted_left (a : list Qc) (v : Qc) : nat :=
  match a with
  | [] => 0
  | m :: a' => if decide (m < v)%Qc then S (searchsorted_left a' v) else 0
  end.

(** A target outside [[c[0], c[-1]]] is outside the domain ([None]). *)
Definition nearest1d (c : list Qc) (t : Qc) : option nat :=
  match c with
  | [] => None
  | lo :: _ =>
      if decide (t < lo)%Qc then None
      else if decide (List.last c lo < t)%Qc then None
      else Some (searchsorted_left (midpoints c) t)
  end.

Definition nearest_value (g : DataArray) (tx ty : Qc) : num :=
  match nearest1d (coord_x g) tx, nearest1d (coord_y g) ty with
  | Some p, Some q => cell g p q
  | _, _ => NaN
  end.

(** [g.interp_like(other, method="nearest")]: the values of [g] at the
    coordinate positions of [other], [NaN] outside the domain of [g]. *)
Definition interp_like_nearest (g other : DataArray) : result DataArray :=
  if decide (coord_x g = [] ∨ coord_y g = [])
  then Raise (ValueError TooFewEntries)
  else Ok (mkDataArray (coord_x other) (coord_y other)
             (fmap (λ tx, fmap (λ ty, nearest_value g tx ty) (coord_y other))
                  (coord_x other))).

(** *** Arithmetic and fillna *)

Definition at_label (g : DataArray) (x y : Qc) : num :=
  match index_of (coord_x g) x, index_of (coord_y g) y with
  | Some p, Some q => cell g p q
  | _, _ => NaN
  end.

(** [a op b]: the operands are aligned on the labels they share (inner join,
    in the order of the left operand), then combined label by label. *)
Definition binary_op (f : num → num → num) (a b : DataArray) : DataArray :=
  let cx := filter (λ x, x ∈ coord_x b) (coord_x a) in
  let cy := filter (λ y, y ∈ coord_y b) (coord_y a) in
  mkDataArray cx cy
    (fmap (λ x, fmap (λ y, f (at_label a x y) (at_label b x y)) cy) cx).

Definition fillna_value (v c : num) : num := if isnan c then v else c.

Definition fillna (g : DataArray) (v : num) : DataArray :=
  mkDataArray (coord_x g) (coord_y g)
    (fmap (M:=list) (fmap (M:=list) (fillna_value v)) (values g)).

(** ** Heap, trace and the monad of Python computations *)

Definition ref := nat.

Inductive event :=
  | EvAssign (r : ref) (ax : axis) (pos : nat)   (* in-place slab assignment *)
  | EvOpen (path : string)                      (* xr.open_dataset *)
  | EvToNetcdf (path : string).                 (* Dataset.to_netcdf *)

#[global] Instance event_eq_dec : EqDecision event.
Proof. solve_decision. Defined.

Record state := mkState { heap : list DataArray; trace : list event }.

#[global] Instance state_eq_dec : EqDecision state.
Proof. solve_decision. Defined.

Definition M (A : Type) : Type := state → result A * state.

#[global] Instance M_ret : MRet M := λ A a σ, (Ok a, σ).
#[global] Instance M_bind : MBind M := λ A B f m σ,
  match m σ with
  | (Ok a, σ') => f a σ'
  | (Raise e, σ') => (Raise e, σ')
  end.

Definition lift {A} (r : result A) : M A := λ σ, (r, σ).
Definition raise {A} (e : exn) : M A := λ σ, (Raise e, σ).

Definition alloc (g : DataArray) : M ref := λ σ,
  (Ok (length (heap σ)), mkState (heap σ ++ [g]) (trace σ)).

Definition deref (r : ref) : M DataArray := λ σ,
  (match heap σ !! r with Some g => Ok g | None => Raise Dangling end, σ).

Definition update (r : ref) (g : DataArray) : M unit := λ σ,
  (Ok (), mkState (<[r := g]> (heap σ)) (trace σ)).

Definition emit (ev : event) : M unit := λ σ,
  (Ok (), mkState (heap σ) (trace σ ++ [ev])).

(** *** The xarray operations on references *)

(** [da["x"]], [da["y"]] *)
Definition getitem_coord (da : ref) (ax : axis) : M (list Qc) :=
  g ← deref da; mret (coord g ax).

(** [da.loc[dict(ax=label)]] *)
Definition loc_getitem (da : ref) (ax : axis) (label : Qc) : M Slab :=
  g ← deref da; lift (sel g ax label).

(** [da.loc[dict(ax=label)] = v] mutates the object behind [da]. *)
Definition loc_setitem (da : ref) (ax : axis) (label : Qc) (v : Slab) : M unit :=
  g ← deref da;
  pg ← lift (loc_assign g ax label v);
  update da pg.2;;
  emit (EvAssign da ax pg.1).

Definition coarsen (da : ref) (window : Z) (agg : list num → num) : M ref :=
  g ← deref da; g' ← lift (coarsen_reduce g window agg); alloc g'.

Definition interp_like (da other : ref) : M ref :=
  g ← deref da; o ← deref other; g' ← lift (interp_like_nearest g o); alloc g'.

Definition truediv (a b : ref) : M ref :=
  ga ← deref a; gb ← deref b; alloc (binary_op num_div ga gb).

Definition mul (a b : ref) : M ref :=
  ga ← deref a; gb ← deref b; alloc (binary_op num_mul ga gb).

Definition fillna_ref (da : ref) (v : num) : M ref :=
  g ← deref da; alloc (fillna g v).

(** [da.copy(deep=True)] *)
Definition copy_deep (da : ref) : M ref :=
  g ← deref da; alloc g.

(** [da.assign_coords({"x": x, "y": y})] returns a new object. *)
Definition assign_coords (da : ref) (x y : list Qc) : M ref :=
  g ← deref da;
  if decide (length x = length (coord_x g) ∧ length y = length (coord_y g))
  then alloc (mkDataArray x y (values g))
  else raise (ValueError ConflictingSizes).

(** ** downscaler/utils/xarray.py *)

(** A projection is represented by its [proj4_params] dictionary. *)
Definition Projection : Type := dict pval.

(** The loop of [align_coordinates] that collects the mismatched parameters:
    it runs over the keys of [proj_start]; reading a key that [proj_final] lacks
    is a [KeyError]. *)
Fixpoint collect_bad_vals (keys : list string) (proj_start proj_final : Projection)
    (bad_vals : dict (pval * pval)) : result (dict (pval * pval)) :=
  match keys with
  | [] => Ok bad_vals
  | key :: keys' =>
      if decide (key ∈ ["x_0"; "y_0"])
      then collect_bad_vals keys' proj_start proj_final bad_vals
      else
        val_start ← dict_getitem proj_start key;
        val_final ← dict_getitem proj_final key;
        if decide (val_final ≠ val_start)
        then collect_bad_vals keys' proj_start proj_final
               (dict_setitem bad_vals key (val_start, val_final))
        else collect_bad_vals keys' proj_start proj_final bad_vals
  end.

(** [c - start + final] on a coordinate array. *)
Definition shift_coord (c : list Qc) (start final : pval) : result (list Qc) :=
  s ← as_number start;
  f ← as_number final;
  Ok (fmap (λ x, x - s + f)%Qc c).

Definition align_coordinates (da : ref) (proj_start proj_final : Projection) : M ref :=
  bad_vals ← lift (collect_bad_vals (dict_keys proj_start) proj_start proj_final []);
  if decide (0 < length (dict_keys bad_vals))
  then raise (ValueError (IncompatibleMapProjections bad_vals))
  else
    false_easting_start ← lift (dict_getitem proj_start "x_0");
    false_easting_final ← lift (dict_getitem proj_final "x_0");
    false_northing_start ← lift (dict_getitem proj_start "y_0");
    false_northing_final ← lift (dict_getitem proj_final "y_0");
    x ← getitem_coord da X;
    x_final ← lift (shift_coord x false_easting_start false_easting_final);
    y ← getitem_coord da Y;
    y_final ← lift (shift_coord y false_northing_start false_northing_final);
    da_aligned ← copy_deep da;
    assign_coords da_aligned x_final y_final.

(** ** downscaler/utils/cmaq.py *)

(** A variable of a dataset is gridded over x and y, or lacks the spatial
    axes. *)
Inductive variable := Gridded (r : ref) | Ungridded.

Record Dataset := mkDataset { attrs : dict pval; data_vars : dict variable }.

(** cartopy's [LambertConformal]: the parameters of the default globe, then
    those of the projection; [lat_2] only with two standard parallels. *)
Definition LambertConformal
    (central_longitude central_latitude false_easting false_northing : pval)
    (standard_parallels : list pval) : result Projection :=
  match standard_parallels with
  | [lat_1] =>
      Ok (dict_update [("ellps", PStr "WGS84")]
            [("proj", PStr "lcc"); ("lon_0", central_longitude);
             ("lat_0", central_latitude); ("x_0", false_easting);
             ("y_0", false_northing); ("lat_1", lat_1)])
  | [lat_1; lat_2] =>
      Ok (dict_update [("ellps", PStr "WGS84")]
            [("proj", PStr "lcc"); ("lon_0", central_longitude);
             ("lat_0", central_latitude); ("x_0", false_easting);
             ("y_0", false_northing); ("lat_1", lat_1); ("lat_2", lat_2)])
  | _ => Raise (ValueError (InvalidProjection "standard_parallels"))
  end.

Definition negate (v : pval) : result pval :=
  q ← as_number v; Ok (PNum (- q)%Qc).

Definition get_cmaq_projection (dset : Dataset) (proj_type : string) : result Projection :=
  if decide (proj_type = "lambert") then
    ycent ← dict_getitem (attrs dset) "YCENT";
    xcent ← dict_getitem (attrs dset) "XCENT";
    p_alp ← dict_getitem (attrs dset) "P_ALP";
    p_bet ← dict_getitem (attrs dset) "P_BET";
    false_easting ← dict_getitem (attrs dset) "XORIG" ≫= negate;
    false_northing ← dict_getitem (attrs dset) "YORIG" ≫= negate;
    LambertConformal xcent ycent false_easting false_northing [p_alp; p_bet]
  else if decide (proj_type = "mercator" ∨ proj_type = "polar") then
    Raise (NotImplementedError proj_type)
  else Raise (ValueError (InvalidProjection proj_type)).

(** ** downscaler/allocate/allocate.py *)

(** One statement [da.loc[dict(ax=c[tgt])] = da.loc[dict(ax=c[src])]]: the
    right-hand side is evaluated first. *)
Definition loc_copy (da : ref) (ax : axis) (c : list Qc) (tgt src : Z) : M unit :=
  label_src ← lift (py_index c src);
  v ← loc_getitem da ax label_src;
  label_tgt ← lift (py_index c tgt);
  loc_setitem da ax label_tgt v.

Definition _fill_perimeter (da : ref) : M ref :=
  x ← getitem_coord da X;
  y ← getitem_coord da Y;
  loc_copy da X x 0 1;;
  loc_copy da X x (-1) (-2);;
  loc_copy da Y y 0 1;;
  loc_copy da Y y (-1) (-2);;
  mret da.

(** The "COARSEN" attribute added to the result is descriptive only. *)
Definition coarsen_finescale_emissions (da_fine : ref) (grid_factor : Z)
    (agg : list num → num) : M ref :=
  coarsen da_fine grid_factor agg.

Definition fractional_contribution (da_fine da_coarse : ref) : M ref :=
  da_coarse_regridded ← interp_like da_coarse da_fine;
  da_coarse_regridded ← _fill_perimeter da_coarse_regridded;
  da_fractional_contribution ← truediv da_fine da_coarse_regridded;
  fillna_ref da_fractional_contribution (Finite 0%Qc).

Definition downscale_coarse_emissions (da_fine da_coarse : ref)
    (proj_fine proj_coarse : Projection) (grid_factor : Z)
    (agg : list num → num) : M ref :=
  da_coarse ← align_coordinates da_coarse proj_coarse proj_fine;
  da_fine_coarsened ← coarsen_finescale_emissions da_fine grid_factor agg;
  ref_contrib ← fractional_contribution da_fine da_fine_coarsened;
  da_coarse_nn ← interp_like da_coarse da_fine;
  da_coarse_nn ← _fill_perimeter da_coarse_nn;
  mul ref_contrib da_coarse_nn.

(** *** Calls with keyword arguments *)

(** The values passed in a call; [OOther] stands for a variable without the
    spatial axes. *)
Inductive pyobj :=
  | ODataArray (r : ref)
  | OOther
  | OProjection (p : Projection)
  | OInt (z : Z)
  | OFunction (f : list num → num).

(** A parameter with its default value, if it has one. *)
Definition parameter : Type := string * option pyobj.

(** Every keyword must name a parameter: the first one that does not is a
    [TypeError]. *)
Fixpoint check_keywords (fn : string) (params : list parameter)
    (kwargs : dict pyobj) : result unit :=
  match kwargs with
  | [] => Ok ()
  | (kw, _) :: kwargs' =>
      if decide (kw ∈ params.*1) then check_keywords fn params kwargs'
      else Raise (TypeError (UnexpectedKeyword fn kw))
  end.

(** Then every parameter takes its keyword's value, or its default; a
    parameter with neither is a [TypeError]. *)
Fixpoint fill_parameters (fn : string) (params : list parameter)
    (kwargs : dict pyobj) : result (list pyobj) :=
  match params with
  | [] => Ok []
  | (name, default) :: params' =>
      v ← match dict_lookup kwargs name, default with
          | Some v, _ => Ok v
          | None, Some d => Ok d
          | None, None => Raise (TypeError (MissingArgument fn name))
          end;
      vs ← fill_parameters fn params' kwargs;
      Ok (v :: vs)
  end.

Definition bind_keywords (fn : string) (params : list parameter)
    (kwargs : dict pyobj) : result (list pyobj) :=
  check_keywords fn params kwargs;;
  fill_parameters fn params kwargs.

(** The signature
    [downscale_coarse_emissions(da_fine, da_coarse, proj_fine, proj_coarse,
                                grid_factor=3, agg=np.sum)]. *)
Definition downscale_coarse_emissions_params : list parameter :=
  [("da_fine", None); ("da_coarse", None); ("proj_fine", None);
   ("proj_coarse", None); ("grid_factor", Some (OInt 3));
   ("agg", Some (OFunction np_sum))].

(** A call of [downscale_coarse_emissions] with keyword arguments only. *)
Definition call_downscale_coarse_emissions (kwargs : dict pyobj) : M ref :=
  args ← lift (bind_keywords "downscale_coarse_emissions"
                 downscale_coarse_emissions_params kwargs);
  match args with
  | [ODataArray da_fine; ODataArray da_coarse; OProjection proj_fine;
     OProjection proj_coarse; OInt grid_factor; OFunction agg] =>
      downscale_coarse_emissions da_fine da_coarse proj_fine proj_coarse
        grid_factor agg
  | _ => raise (TypeError BadOperand)
  end.

(** [dset[var]] *)
Definition dataset_getitem (dset : Dataset) (var : string) : result pyobj :=
  v ← dict_getitem (data_vars dset) var;
  Ok (match v with Gridded r => ODataArray r | Ungridded => OOther end).

(** *** The command line *)

Record CommandLine := mkCommandLine {
  cl_fine : string;
  cl_coarse : string;
  cl_out : option string;
  cl_gridfactor : option Z;
  cl_datavars : option (list string);
  cl_outputyear : option Z;
  cl_loglevel : option Z;
  cl_progressbar : bool
}.

Record Namespace := mkNamespace {
  fine : string;
  coarse : string;
  out : string;
  gridfactor : Z;
  datavars : option (list string);
  outputyear : Z;
  loglevel : Z;
  progressbar : bool
}.

(** [parser.parse_args()] with the defaults declared by [add_argument];
    [type=int] makes the grid factor an integer. *)
Definition argparse_parse_args (cl : CommandLine) : Namespace :=
  mkNamespace (cl_fine cl) (cl_coarse cl)
    (default "./out.ncf" (cl_out cl))
    (default 3%Z (cl_gridfactor cl))
    (cl_datavars cl)
    (default 1901%Z (cl_outputyear cl))
    (default 30%Z (cl_loglevel cl))
    (cl_progressbar cl).

(** [args.gridfactor % 2 == 0]: Python's [%] with a positive divisor is
    [Z.modulo]. *)
Definition parse_args (cl : CommandLine) : result Namespace :=
  let args := argparse_parse_args cl in
  if decide (gridfactor args `mod` 2 = 0)%Z
  then Raise (ValueError (NotAnOddInteger (gridfactor args)))
  else Ok args.

(** *** The variable driver *)

Definition map_downscale (var : string) (da_ref da_target : Dataset)
    (proj_ref proj_target : Projection) (grid_factor : Z) : M ref :=
  da_ref_var ← lift (dataset_getitem da_ref var);
  da_target_var ← lift (dataset_getitem da_target var);
  call_downscale_coarse_emissions
    [("da_ref", da_ref_var); ("da_target", da_target_var);
     ("proj_ref", OProjection proj_ref); ("proj_target", OProjection proj_target);
     ("grid_factor", OInt grid_factor)].

(** The dictionary comprehension [{var: f(var) for var in vars}]. *)
Fixpoint dict_comprehension (f : string → M ref) (vars : list string)
    (acc : dict ref) : M (dict ref) :=
  match vars with
  | [] => mret acc
  | var :: vars' =>
      r ← f var;
      dict_comprehension f vars' (dict_setitem acc var r)
  end.

Definition downscale_vars (data_vars : list string) (da_ref da_target : Dataset)
    (grid_factor : Z) (progress : list string → list string) : M (dict ref) :=
  proj_fine ← lift (get_cmaq_projection da_ref "lambert");
  proj_coarse ← lift (get_cmaq_projection da_target "lambert");
  let map_downscale_partial := λ var,
    map_downscale var da_ref da_target proj_fine proj_coarse grid_factor in
  dict_comprehension map_downscale_partial (progress data_vars) [].

(** *** Reading the inputs and the entry point *)

(** What a file holds: the global attributes and, for every variable, its
    values over (x, y) when it is gridded.  The time axis and its metadata are
    outside the model. *)
Record RawDataset := mkRawDataset {
  file_attrs : dict pval;
  file_vars : dict (option (list (list num)))
}.

Definition FileSystem : Type := dict RawDataset.

Definition open_dataset (fs : FileSystem) (path : string) : M RawDataset :=
  emit (EvOpen path);;
  lift (match dict_lookup fs path with
        | Some d => Ok d
        | None => Raise (FileNotFoundError path)
        end).

(** [np.arange(0, stop, step)] *)
Definition np_arange (stop step : Qc) : result (list Qc) :=
  if decide (step = 0)%Qc then Raise ZeroDivisionError
  else Ok (fmap (λ i, Qc_of_Z (Z.of_nat i) * step)%Qc
             (seq 0 (Z.to_nat (Qceiling (stop / step)%Qc)))).

Definition get_cmaq_xy (dset : RawDataset) : result (list Qc * list Qc) :=
  xcell ← dict_getitem (file_attrs dset) "XCELL" ≫= as_number;
  ncols ← dict_getitem (file_attrs dset) "NCOLS" ≫= as_number;
  xcoords ← np_arange (xcell * ncols)%Qc xcell;
  ycell ← dict_getitem (file_attrs dset) "YCELL" ≫= as_number;
  nrows ← dict_getitem (file_attrs dset) "NROWS" ≫= as_number;
  ycoords ← np_arange (ycell * nrows)%Qc ycell;
  Ok (xcoords, ycoords).

(** [assign_coords] on every variable of the file: a gridded variable becomes
    a [DataArray] on the heap, carrying the coordinate arrays. *)
Fixpoint attach_coords (xcoords ycoords : list Qc)
    (vars : dict (option (list (list num)))) : M (dict variable) :=
  match vars with
  | [] => mret []
  | (name, None) :: vars' =>
      rest ← attach_coords xcoords ycoords vars';
      mret ((name, Ungridded) :: rest)
  | (name, Some vals) :: vars' =>
      if decide (length vals = length xcoords
                 ∧ Forall (λ col, length col = length ycoords) vals)
      then r ← alloc (mkDataArray xcoords ycoords vals);
           rest ← attach_coords xcoords ycoords vars';
           mret ((name, Gridded r) :: rest)
      else raise (ValueError ConflictingSizes)
  end.

Definition get_cmaq_metadata (dset : RawDataset) : M Dataset :=
  xy ← lift (get_cmaq_xy dset);
  vars ← attach_coords xy.1 xy.2 (file_vars dset);
  mret (mkDataset (file_attrs dset) vars).

(** [update_datetime_year] replaces the time coordinate only; the variables of
    the result share their data with those of [ds]. *)
Definition update_datetime_year (ds : Dataset) (updated_year : Z) : M Dataset :=
  mret ds.

Definition tqdm (vars : list string) : list string := vars.

Definition is_gridded (ds : Dataset) (var : string) : bool :=
  match dict_lookup (data_vars ds) var with Some (Gridded _) => true | _ => false end.

Definition main (fs : FileSystem) (cl : CommandLine) : M unit :=
  args ← lift (parse_args cl);
  let file_coarse := coarse args in
  let file_fine := fine args in
  let file_out := out args in
  let output_year := outputyear args in
  let grid_factor := gridfactor args in
  let progress := if progressbar args then tqdm else (λ x, x) in
  grid_fine ← (raw ← open_dataset fs file_fine;
               ds ← get_cmaq_metadata raw;
               update_datetime_year ds output_year);
  grid_coarse ← (raw ← open_dataset fs file_coarse;
                 ds ← get_cmaq_metadata raw;
                 update_datetime_year ds output_year);
  let data_vars :=
    match datavars args with
    | Some vars => vars
    | None =>
        let vars := dict_keys (data_vars grid_coarse) in
        let vars := filter (λ x, x ∈ dict_keys (data_vars grid_fine)) vars in
        filter (λ x, is_gridded grid_coarse x = true) vars
    end in
  downscaled_output ← downscale_vars data_vars grid_fine grid_coarse
                        grid_factor progress;
  emit (EvToNetcdf file_out).

(** ** Specification-level definitions *)

(** The invariant of a grid: strictly increasing coordinate arrays whose
    lengths are the sizes of the value array. *)
Definition wf_grid (g : DataArray) : Prop :=
  Sorted Qclt (coord_x g) ∧ Sorted Qclt (coord_y g)
  ∧ length (values g) = length (coord_x g)
  ∧ Forall (λ col, length col = length (coord_y g)) (values g).

#[global] Instance wf_grid_dec g : Decision (wf_grid g).
Proof. unfold wf_grid. apply _. Defined.

Definition nx (g : DataArray) : nat := length (coord_x g).
Definition ny (g : DataArray) : nat := length (coord_y g).

(** Two projections agree on every parameter other than the false easting and
    the false northing. *)
Definition translation_keys : list string := ["x_0"; "y_0"].

Definition compatible (p1 p2 : Projection) : Prop :=
  Forall (λ key, key ∈ translation_keys ∨ dict_lookup p1 key = dict_lookup p2 key)
         (dict_keys p1 ++ dict_keys p2).

#[global] Instance compatible_dec p1 p2 : Decision (compatible p1 p2).
Proof. unfold compatible. apply _. Defined.

(** The false easting and false northing of a projection are numbers. *)
Definition has_offsets (p : Projection) (x_0 y_0 : Qc) : Prop :=
  dict_lookup p "x_0" = Some (PNum x_0) ∧ dict_lookup p "y_0" = Some (PNum y_0).

(** The parameters that [align_coordinates] is meant to report: the keys of
    [proj_start] outside the translation whose value in [proj_final] differs,
    each with both values. *)
Definition mismatches (proj_start proj_final : Projection) : dict (pval * pval) :=
  omap (λ kv : string * pval,
          if decide (kv.1 ∈ translation_keys) then None
          else match dict_lookup proj_final kv.1 with
               | Some val_final =>
                   if decide (val_final ≠ kv.2) then Some (kv.1, (kv.2, val_final))
                   else None
               | None => None
               end)
       proj_start.

(** Positional form of the perimeter fill: along one axis, position 0 takes
    the value of position 1, then the last position takes the value of the one
    before it. *)
Definition fill_ends {A} `{Inhabited A} (l : list A) : list A :=
  let l1 := <[0 := l !!! 1]> l in
  <[length l - 1 := l1 !!! (length l - 2)]> l1.

Definition fill_x (vals : list (list num)) : list (list num) := fill_ends vals.
Definition fill_y (vals : list (list num)) : list (list num) := fmap fill_ends vals.

(** The array after the two x-edge assignments only. *)
Definition x_filled (g : DataArray) : DataArray :=
  mkDataArray (coord_x g) (coord_y g) (fill_x (values g)).

(** The position whose original value ends up at position [i] of an axis of
    length [n]: the edges read their inner neighbour. *)
Definition inner (n i : nat) : nat := Nat.max 1 (Nat.min i (n - 2)).

Definition perimeter_filled (g : DataArray) : DataArray :=
  mkDataArray (coord_x g) (coord_y g) (fill_y (fill_x (values g))).

Definition perimeter_fill_value (g : DataArray) : result DataArray :=
  if decide (2 ≤ nx g ∧ 2 ≤ ny g) then Ok (perimeter_filled g)
  else Raise IndexError.

(** Positional effect of copying the slab at position [src] of an axis onto
    position [tgt]. *)
Definition copy_slab (g : DataArray) (ax : axis) (src tgt : nat) : DataArray :=
  mkDataArray (coord_x g) (coord_y g)
    match ax with
    | X => <[tgt := values g !!! src]> (values g)
    | Y => fmap (λ col, <[tgt := col !!! src]> col) (values g)
    end.

(** The cells covered by an in-place slab assignment. *)
Definition covers (ev : event) (r : ref) (i j : nat) : bool :=
  match ev with
  | EvAssign r' X p => bool_decide (r' = r ∧ p = i)
  | EvAssign r' Y q => bool_decide (r' = r ∧ q = j)
  | _ => false
  end.

Definition overwrites (t : list event) (r : ref) (i j : nat) : nat :=
  length (filter (λ ev, covers ev r i j = true) t).

(** The assignments made by one perimeter fill of the object [r], in order. *)
Definition fill_events (r : ref) (g : DataArray) : list event :=
  [EvAssign r X 0; EvAssign r X (nx g - 1); EvAssign r Y 0; EvAssign r Y (ny g - 1)].

(** The value of a cell of the object behind a reference. *)
Definition cell_at (σ : state) (r : ref) (i j : nat) : option num :=
  g ← heap σ !! r; Some (cell g i j).

(** Position-by-position combination of two arrays on the same grid. *)
Definition elementwise (f : num → num → num) (a b : DataArray) : DataArray :=
  mkDataArray (coord_x a) (coord_y a) (zip_with (zip_with f) (values a) (values b)).

(** The steps of the pipeline on values. *)
Definition shifted (g : DataArray) (dx dy : Qc) : DataArray :=
  mkDataArray (fmap (λ x, x + dx)%Qc (coord_x g)) (fmap (λ y, y + dy)%Qc (coord_y g))
              (values g).

Definition aligned_value (g : DataArray) (proj_start proj_final : Projection)
  : result DataArray :=
  bad_vals ← collect_bad_vals (dict_keys proj_start) proj_start proj_final [];
  if decide (0 < length (dict_keys bad_vals))
  then Raise (ValueError (IncompatibleMapProjections bad_vals))
  else
    xs ← dict_getitem proj_start "x_0";
    xf ← dict_getitem proj_final "x_0";
    ys ← dict_getitem proj_start "y_0";
    yf ← dict_getitem proj_final "y_0";
    x_final ← shift_coord (coord_x g) xs xf;
    y_final ← shift_coord (coord_y g) ys yf;
    Ok (mkDataArray x_final y_final (values g)).

Definition resample_value (c f : DataArray) : result DataArray :=
  interp_like_nearest c f ≫= perimeter_fill_value.

Definition fraction_value (f c : DataArray) : result DataArray :=
  d ← resample_value c f;
  Ok (fillna (elementwise num_div f d) (Finite 0%Qc)).

Definition pipeline_value (f c : DataArray) (proj_fine proj_coarse : Projection)
    (grid_factor : Z) (agg : list num → num) : result DataArray :=
  c' ← aligned_value c proj_coarse proj_fine;       (* align *)
  a ← coarsen_reduce f grid_factor agg;             (* aggregate *)
  fr ← fraction_value f a;                          (* allocate *)
  nn ← resample_value c' f;                         (* resample *)
  Ok (elementwise num_mul fr nn).                   (* combine *)

(** A finite value that is not negative. *)
Definition nonneg (v : num) : Prop :=
  match v with Finite q => (0 ≤ q)%Qc | _ => False end.

(** The sum of all the values of an array. *)
Definition total (g : DataArray) : num := np_sum (concat (values g)).

(** A computation returns a reference to the array [spec] describes, leaving
    every object that existed before in place, or raises the error of [spec]. *)
Definition computes (m : M ref) (σ : state) (spec : result DataArray) : Prop :=
  match spec with
  | Ok g => ∃ r σ', m σ = (Ok r, σ') ∧ heap σ `prefix_of` heap σ'
                    ∧ heap σ' !! r = Some g
  | Raise e => ∃ σ', m σ = (Raise e, σ')
  end.

(** ** Concrete inputs *)

Definition qz (z : Z) : Qc := Qc_of_Z z.

(** An [n] by [m] grid with cell centres [origin + spacing * i] on both axes
    and the values given by [f]. *)
Definition grid_of (origin spacing : Z) (n m : nat) (f : nat → nat → num) : DataArray :=
  mkDataArray ((λ i, qz (origin + spacing * Z.of_nat i)) <$> seq 0 n)
              ((λ j, qz (origin + spacing * Z.of_nat j)) <$> seq 0 m)
              ((λ i, (λ j, f i j) <$> seq 0 m) <$> seq 0 n).

Definition ok_or {A} (d : A) (r : result A) : A :=
  match r with Ok a => a | Raise _ => d end.

(** Lambert conformal projections: the reference one, one with another false
    origin, one with another second standard parallel, and one built with a
    single standard parallel. *)
Definition lcc (false_easting false_northing : Z) (parallels : list Z) : Projection :=
  ok_or [] (LambertConformal (PNum (qz (-97))) (PNum (qz 40))
              (PNum (qz false_easting)) (PNum (qz false_northing))
              ((λ p, PNum (qz p)) <$> parallels)).

Definition proj_ref : Projection := lcc 0 0 [33; 45]%Z.
Definition proj_moved : Projection := lcc 1000 (-500) [33; 45]%Z.
Definition proj_other_parallel : Projection := lcc 0 0 [33; 60]%Z.
Definition proj_one_parallel : Projection := lcc 0 0 [33]%Z.

(** The end-to-end example: a 9 by 9 fine grid of ones and a 3 by 3 coarse
    grid carrying 9 on its diagonal. *)
Definition fine_ones : DataArray := grid_of 0 1 9 9 (λ _ _, Finite 1%Qc).

Definition coarse_diag : DataArray :=
  grid_of 1 3 3 3 (λ i j, if decide (i = j) then Finite (qz 9) else Finite 0%Qc).

(** A 6 by 6 fine grid whose first 3 by 3 block holds +1 and -1 (and zeros),
    so that the block sums to zero; every other cell holds 1. *)
Definition fine_signed : DataArray :=
  grid_of 0 1 6 6 (λ i j,
    if decide (i < 3 ∧ j < 3)
    then (if decide (i = 0 ∧ j = 0) then Finite 1%Qc
          else if decide (i = 0 ∧ j = 1) then Finite (- 1)%Qc
          else Finite 0%Qc)
    else Finite 1%Qc).

(** A 6 by 6 fine grid with a [NaN] cell. *)
Definition fine_nan : DataArray :=
  grid_of 0 1 6 6 (λ i j, if decide (i = 4 ∧ j = 2) then NaN else Finite 1%Qc).

Definition empty_state : state := mkState [] [].
Definition state_of (objects : list DataArray) : state := mkState objects [].

(** Two datasets sharing the variable "NO", with the attributes of a Lambert
    grid; the arrays behind the references 0 and 1 of [state_of
    [fine_ones; coarse_diag]]. *)
Definition lambert_attrs (xorig yorig : Z) : dict pval :=
  [("YCENT", PNum (qz 40)); ("XCENT", PNum (qz (-97)));
   ("P_ALP", PNum (qz 33)); ("P_BET", PNum (qz 45));
   ("XORIG", PNum (qz xorig)); ("YORIG", PNum (qz yorig))].

Definition dataset_fine : Dataset :=
  mkDataset (lambert_attrs 0 0) [("TFLAG", Ungridded); ("NO", Gridded 0)].

Definition dataset_coarse : Dataset :=
  mkDataset (lambert_attrs 0 0) [("TFLAG", Ungridded); ("NO", Gridded 1)].

(** Command lines with the grid factors 4 and -3. *)
Definition command_line (grid_factor : Z) : CommandLine :=
  mkCommandLine "fine.ncf" "coarse.ncf" None (Some grid_factor) None None None false.

(** The coarse grid of the example expressed in the false-origin convention of
    [proj_moved], and a 2 by 2 grid, the smallest the perimeter fill accepts. *)
Definition coarse_diag_moved : DataArray := shifted coarse_diag (qz 1000) (qz (-500)).

Definition grid_2x2 : DataArray :=
  grid_of 0 1 2 2 (λ i j, Finite (qz (Z.of_nat (2 * i + j)))).

Definition coarse_2x2 : DataArray := grid_of 1 3 2 2 (λ _ _, Finite (qz 9)).

(** Closing a decidable closed goal by evaluation. *)
Ltac by_compute := apply (bool_decide_unpack _); vm_compute; exact I.

(** * Proofs *)

(** ** Running monadic computations *)

Lemma bind_run {A B} (m : M A) (f : A → M B) σ :
  (m ≫= f) σ = match m σ with
               | (Ok a, σ') => f a σ'
               | (Raise e, σ') => (Raise e, σ')
               end.
Proof. reflexivity. Qed.

Lemma bind_ok {A B} (m : M A) (f : A → M B) σ a σ' :
  m σ = (Ok a, σ') → (m ≫= f) σ = f a σ'.
Proof. intros E. rewrite bind_run, E. reflexivity. Qed.

Lemma bind_raise {A B} (m : M A) (f : A → M B) σ e σ' :
  m σ = (Raise e, σ') → (m ≫= f) σ = (Raise e, σ').
Proof. intros E. rewrite bind_run, E. reflexivity. Qed.

Lemma deref_run σ r g : heap σ !! r = Some g → deref r σ = (Ok g, σ).
Proof. intros E. unfold deref. rewrite E. reflexivity. Qed.

Lemma lift_run {A} (x : result A) σ : lift x σ = (x, σ).
Proof. reflexivity. Qed.

Lemma state_eta σ : mkState (heap σ) (trace σ) = σ.
Proof. destruct σ; reflexivity. Qed.

(** ** Labels and positions *)

Lemma Sorted_Qclt_NoDup (c : list Qc) : Sorted Qclt c → NoDup c.
Proof.
  intros Hs. assert (Transitive Qclt) as Htr by (intros x y z; apply Qclt_trans).
  apply (Sorted_StronglySorted Qclt) in Hs.
  induction Hs as [|a l _ IH Hall]; constructor; [|exact IH].
  intros Hin. rewrite Forall_forall in Hall.
  apply (Qclt_not_eq a a); [|reflexivity]. by apply Hall.
Qed.

Lemma index_of_lookup (c : list Qc) (i : nat) (q : Qc) :
  NoDup c → c !! i = Some q → index_of c q = Some i.
Proof.
  intros Hnd. revert i. induction Hnd as [|a l Hnotin _ IH]; intros i Hi; [done|].
  destruct i as [|i]; simpl in *.
  - inversion Hi; subst. by rewrite decide_True.
  - rewrite decide_False.
    + by rewrite (IH i Hi).
    + intros ->. apply Hnotin. by eapply list_elem_of_lookup_2.
Qed.

Lemma index_of_Some (c : list Qc) (q : Qc) (i : nat) :
  index_of c q = Some i → c !! i = Some q.
Proof.
  revert i. induction c as [|a c IH]; intros i; simpl; [done|].
  case_decide as E.
  - intros [= <-]. by subst.
  - destruct (index_of c q) as [j|] eqn:Ej; simpl; [|done].
    intros [= <-]. by apply IH.
Qed.

Lemma get_loc_lookup (c : list Qc) (i : nat) (q : Qc) :
  NoDup c → c !! i = Some q → get_loc c q = Ok i.
Proof. intros Hnd Hi. unfold get_loc. by rewrite (index_of_lookup c i q). Qed.

Lemma py_index_nonneg {A} (l : list A) (i : nat) (a : A) :
  l !! i = Some a → py_index l (Z.of_nat i) = Ok a.
Proof.
  intros Hi. pose proof (lookup_lt_Some _ _ _ Hi) as Hlt. unfold py_index.
  destruct (Z.ltb_spec (Z.of_nat i) 0); [lia|].
  destruct (Z.leb_spec 0 (Z.of_nat i)); [|lia].
  destruct (Z.ltb_spec (Z.of_nat i) (Z.of_nat (length l))); [|lia].
  simpl. by rewrite Nat2Z.id, Hi.
Qed.

Lemma py_index_neg {A} (l : list A) (i : nat) (a : A) :
  0 < i → i ≤ length l → l !! (length l - i) = Some a →
  py_index l (- Z.of_nat i) = Ok a.
Proof.
  intros Hpos Hle Hi. unfold py_index.
  destruct (Z.ltb_spec (- Z.of_nat i) 0); [|lia].
  destruct (Z.leb_spec 0 (Z.of_nat (length l) + - Z.of_nat i)); [|lia].
  destruct (Z.ltb_spec (Z.of_nat (length l) + - Z.of_nat i) (Z.of_nat (length l))); [|lia].
  simpl. replace (Z.to_nat (Z.of_nat (length l) + - Z.of_nat i)) with (length l - i) by lia.
  by rewrite Hi.
Qed.

Lemma py_index_short {A} (l : list A) (i : nat) :
  length l ≤ i → py_index l (Z.of_nat i) = Raise IndexError.
Proof.
  intros Hle. unfold py_index.
  destruct (Z.ltb_spec (Z.of_nat i) 0); [lia|].
  destruct (Z.leb_spec 0 (Z.of_nat i)); [|lia].
  destruct (Z.ltb_spec (Z.of_nat i) (Z.of_nat (length l))); [lia|]. done.
Qed.

(** ** Slab selection and assignment by position *)

Lemma zip_with_insert_column (vals : list (list num)) (src tgt : nat) :
  zip_with (λ col e, <[tgt := e]> col) vals (fmap (λ col, col !!! src) vals)
  = fmap (λ col, <[tgt := col !!! src]> col) vals.
Proof. induction vals as [|col vals IH]; [done|]. cbn. f_equal. exact IH. Qed.

Lemma sel_position (g : DataArray) (ax : axis) (p : nat) (label : Qc) :
  NoDup (coord g ax) → coord g ax !! p = Some label →
  sel g ax label
  = Ok match ax with
       | X => mkSlab (coord_y g) (values g !!! p)
       | Y => mkSlab (coord_x g) (fmap (λ col, col !!! p) (values g))
       end.
Proof.
  intros Hnd Hp. destruct ax; simpl in *; by rewrite (get_loc_lookup _ p label).
Qed.

Lemma loc_assign_position (g : DataArray) (ax : axis) (src tgt : nat) (label : Qc) :
  NoDup (coord g ax) → coord g ax !! tgt = Some label →
  loc_assign g ax label
    match ax with
    | X => mkSlab (coord_y g) (values g !!! src)
    | Y => mkSlab (coord_x g) (fmap (λ col, col !!! src) (values g))
    end
  = Ok (tgt, copy_slab g ax src tgt).
Proof.
  intros Hnd Hp. unfold copy_slab.
  destruct ax; simpl in *; rewrite (get_loc_lookup _ tgt label) by done; simpl.
  - by rewrite decide_True.
  - rewrite decide_True by done. by rewrite zip_with_insert_column.
Qed.

Lemma loc_copy_run σ da g ax (c : list Qc) (tgt src : Z) (pt ps : nat) (lt ls : Qc) :
  heap σ !! da = Some g → coord g ax = c → NoDup c →
  py_index c src = Ok ls → c !! ps = Some ls →
  py_index c tgt = Ok lt → c !! pt = Some lt →
  loc_copy da ax c tgt src σ
  = (Ok (), mkState (<[da := copy_slab g ax ps pt]> (heap σ))
                    (trace σ ++ [EvAssign da ax pt])).
Proof.
  intros Hda <- Hnd Hsrc Hps Htgt Hpt. unfold loc_copy, loc_getitem, loc_setitem.
  rewrite bind_run, lift_run, Hsrc.
  rewrite bind_run, bind_run, (deref_run _ _ _ Hda), lift_run.
  rewrite (sel_position g ax ps ls) by done.
  rewrite bind_run, lift_run, Htgt.
  rewrite bind_run, (deref_run _ _ _ Hda), bind_run, lift_run.
  rewrite (loc_assign_position g ax ps pt lt) by done.
  reflexivity.
Qed.

(** ** The perimeter fill *)

Lemma getitem_coord_run σ da g ax :
  heap σ !! da = Some g → getitem_coord da ax σ = (Ok (coord g ax), σ).
Proof. intros Hda. unfold getitem_coord. by rewrite bind_run, (deref_run _ _ _ Hda). Qed.

Lemma wf_grid_NoDup g ax : wf_grid g → NoDup (coord g ax).
Proof. intros (Hx & Hy & _). destruct ax; by apply Sorted_Qclt_NoDup. Qed.

Lemma lookup_lt_total {A} `{Inhabited A} (l : list A) (i : nat) :
  i < length l → l !! i = Some (l !!! i).
Proof. apply list_lookup_lookup_total_lt. Qed.

Lemma heap_insert_lookup (h : list DataArray) (da : ref) (g g' : DataArray) :
  h !! da = Some g → <[da := g']> h !! da = Some g'.
Proof. intros Hda. apply list_lookup_insert_eq. by eapply lookup_lt_Some. Qed.

Lemma fill_perimeter_values (g : DataArray) :
  wf_grid g → 2 ≤ nx g →
  values (copy_slab (copy_slab (copy_slab (copy_slab g X 1 0) X (nx g - 2) (nx g - 1))
                               Y 1 0) Y (ny g - 2) (ny g - 1))
  = fill_y (fill_x (values g)).
Proof.
  intros (_ & _ & Hlen & Hcols) Hnx. unfold nx, ny in *. simpl.
  unfold fill_y, fill_x. rewrite <- list_fmap_compose.
  assert (fill_ends (values g)
          = <[length (coord_x g) - 1 :=
                <[0 := values g !!! 1]> (values g) !!! (length (coord_x g) - 2)]>
              (<[0 := values g !!! 1]> (values g))) as ->.
  { unfold fill_ends. by rewrite Hlen. }
  apply Forall_fmap_ext_1.
  assert (Forall (λ col : list num, length col = length (coord_y g))
            (<[0 := values g !!! 1]> (values g))) as Hcols1.
  { apply Forall_insert; [done|]. rewrite Forall_forall in Hcols. apply Hcols.
    apply list_elem_of_lookup_total_2. lia. }
  assert (Forall (λ col : list num, length col = length (coord_y g))
            (<[length (coord_x g) - 1 :=
                <[0 := values g !!! 1]> (values g) !!! (length (coord_x g) - 2)]>
               (<[0 := values g !!! 1]> (values g)))) as Hcols2.
  { apply Forall_insert; [done|]. rewrite Forall_forall in Hcols1. apply Hcols1.
    apply list_elem_of_lookup_total_2. rewrite length_insert. lia. }
  eapply Forall_impl; [exact Hcols2|]. intros col Hcol. simpl.
  unfold fill_ends. by rewrite Hcol.
Qed.

Lemma fill_perimeter_run σ da g :
  heap σ !! da = Some g → wf_grid g → 2 ≤ nx g → 2 ≤ ny g →
  _fill_perimeter da σ
  = (Ok da, mkState (<[da := perimeter_filled g]> (heap σ))
                    (trace σ ++ [EvAssign da X 0; EvAssign da X (nx g - 1);
                                 EvAssign da Y 0; EvAssign da Y (ny g - 1)])).
Proof.
  intros Hda Hwf Hnx Hny. unfold _fill_perimeter.
  pose proof (wf_grid_NoDup g X Hwf) as HndX.
  pose proof (wf_grid_NoDup g Y Hwf) as HndY.
  unfold nx, ny in *. simpl in HndX, HndY.
  rewrite bind_run, (getitem_coord_run _ _ _ X Hda).
  rewrite bind_run, (getitem_coord_run _ _ _ Y Hda). simpl coord.
  (* x[0] := x[1] *)
  set (g1 := copy_slab g X 1 0).
  rewrite bind_run.
  rewrite (loc_copy_run σ da g X (coord_x g) 0 1 0 1 (coord_x g !!! 0) (coord_x g !!! 1)); try done;
    try (apply (py_index_nonneg _ 0) || apply (py_index_nonneg _ 1));
    try (apply lookup_lt_total; lia).
  fold g1.
  set (σ1 := mkState _ _).
  assert (heap σ1 !! da = Some g1) as Hda1 by (by eapply heap_insert_lookup).
  (* x[-1] := x[-2] *)
  set (g2 := copy_slab g1 X (length (coord_x g) - 2) (length (coord_x g) - 1)).
  rewrite bind_run.
  rewrite (loc_copy_run σ1 da g1 X (coord_x g) (-1) (-2) (length (coord_x g) - 1)
             (length (coord_x g) - 2)
             (coord_x g !!! (length (coord_x g) - 1))
             (coord_x g !!! (length (coord_x g) - 2))); try done;
    try (apply (py_index_neg _ 1) || apply (py_index_neg _ 2); try lia);
    try (apply lookup_lt_total; simpl; lia).
  fold g2.
  set (σ2 := mkState _ _).
  assert (heap σ2 !! da = Some g2) as Hda2 by (by eapply heap_insert_lookup).
  (* y[0] := y[1] *)
  set (g3 := copy_slab g2 Y 1 0).
  rewrite bind_run.
  rewrite (loc_copy_run σ2 da g2 Y (coord_y g) 0 1 0 1 (coord_y g !!! 0) (coord_y g !!! 1)); try done;
    try (apply (py_index_nonneg _ 0) || apply (py_index_nonneg _ 1));
    try (apply lookup_lt_total; simpl; lia).
  fold g3.
  set (σ3 := mkState _ _).
  assert (heap σ3 !! da = Some g3) as Hda3 by (by eapply heap_insert_lookup).
  (* y[-1] := y[-2] *)
  rewrite bind_run.
  rewrite (loc_copy_run σ3 da g3 Y (coord_y g) (-1) (-2) (length (coord_y g) - 1)
             (length (coord_y g) - 2)
             (coord_y g !!! (length (coord_y g) - 1))
             (coord_y g !!! (length (coord_y g) - 2))); try done;
    try (apply (py_index_neg _ 1) || apply (py_index_neg _ 2); try lia);
    try (apply lookup_lt_total; simpl; lia).
  unfold mret, M_ret. f_equal. subst σ3 σ2 σ1. simpl.
  rewrite !list_insert_insert_eq, <- !app_assoc. simpl. f_equal. f_equal.
  unfold perimeter_filled. rewrite <- (fill_perimeter_values g Hwf Hnx). reflexivity.
Qed.

(** ** Filling the two ends of a list *)

Section fill_ends.
Context {A : Type} `{Inhabited A}.
Implicit Types l : list A.

Lemma fill_ends_length l : length (fill_ends l) = length l.
Proof. unfold fill_ends. by rewrite !length_insert. Qed.

Lemma fill_ends_lookup l (i : nat) :
  2 ≤ length l → i < length l →
  fill_ends l !!! i = l !!! inner (length l) i.
Proof.
  intros Hlen Hi. unfold fill_ends, inner.
  rewrite !list_lookup_total_insert, !length_insert.
  repeat case_decide; f_equal; lia.
Qed.

Lemma fill_ends_idemp l :
  2 ≤ length l → fill_ends (fill_ends l) = fill_ends l.
Proof.
  intros Hlen. apply list_eq_same_length with (length l);
    rewrite ?fill_ends_length; try done.
  intros i x y Hi Hx Hy.
  apply list_lookup_total_correct in Hx, Hy. subst.
  rewrite fill_ends_lookup by (rewrite ?fill_ends_length; lia).
  rewrite fill_ends_length.
  rewrite !fill_ends_lookup by (unfold inner; lia).
  f_equal. unfold inner. lia.
Qed.
End fill_ends.

Lemma fill_ends_map {A B} `{Inhabited A, Inhabited B} (f : A → B) (l : list A) :
  2 ≤ length l → fill_ends (f <$> l) = f <$> fill_ends l.
Proof.
  intros Hlen. unfold fill_ends.
  rewrite length_fmap, (list_lookup_total_fmap f l 1) by lia.
  rewrite <- list_fmap_insert.
  rewrite (list_lookup_total_fmap f) by (rewrite length_insert; lia).
  by rewrite <- list_fmap_insert.
Qed.

Lemma fill_x_Forall (P : list num → Prop) (vals : list (list num)) :
  2 ≤ length vals → Forall P vals → Forall P (fill_x vals).
Proof.
  intros Hlen HP. unfold fill_x, fill_ends.
  assert (Forall P (<[0 := vals !!! 1]> vals)) as HP1.
  { apply Forall_insert; [done|]. rewrite Forall_forall in HP. apply HP.
    apply list_elem_of_lookup_total_2. lia. }
  apply Forall_insert; [done|]. rewrite Forall_forall in HP1. apply HP1.
  apply list_elem_of_lookup_total_2. rewrite length_insert. lia.
Qed.

Lemma wf_perimeter_filled g : wf_grid g → 2 ≤ nx g → wf_grid (perimeter_filled g).
Proof.
  intros (Hx & Hy & Hlen & Hcols) Hnx. unfold nx in Hnx.
  repeat split; simpl; try done.
  - unfold fill_y, fill_x. by rewrite length_fmap, fill_ends_length.
  - unfold fill_y. apply Forall_fmap.
    eapply Forall_impl; [apply fill_x_Forall; [lia|exact Hcols]|].
    intros col Hcol. simpl. by rewrite fill_ends_length.
Qed.

Create HintDb grid.

#[export] Hint Resolve wf_perimeter_filled : grid.

Lemma cell_x_filled g i j :
  wf_grid g → 2 ≤ nx g → i < nx g →
  cell (x_filled g) i j = cell g (inner (nx g) i) j.
Proof.
  intros (_ & _ & Hlen & _) Hnx Hi. unfold nx in *. unfold cell, x_filled, fill_x. simpl.
  rewrite fill_ends_lookup by lia. by rewrite Hlen.
Qed.

Lemma cell_perimeter_filled g i j :
  wf_grid g → 2 ≤ nx g → 2 ≤ ny g → i < nx g → j < ny g →
  cell (perimeter_filled g) i j = cell (x_filled g) i (inner (ny g) j).
Proof.
  intros (_ & _ & Hlen & Hcols) Hnx Hny Hi Hj. unfold nx, ny in *.
  unfold cell, perimeter_filled, x_filled, fill_y. simpl.
  assert (length (fill_x (values g) !!! i) = length (coord_y g)) as Hcol.
  { pose proof (fill_x_Forall _ (values g) ltac:(lia) Hcols) as HF.
    rewrite Forall_forall in HF. apply HF. apply list_elem_of_lookup_total_2.
    unfold fill_x. rewrite fill_ends_length. lia. }
  rewrite (list_lookup_total_fmap fill_ends) by (unfold fill_x; rewrite fill_ends_length; lia).
  rewrite fill_ends_lookup by lia. by rewrite Hcol.
Qed.

Lemma perimeter_filled_idemp g :
  wf_grid g → 2 ≤ nx g → 2 ≤ ny g →
  perimeter_filled (perimeter_filled g) = perimeter_filled g.
Proof.
  intros (_ & _ & Hlen & Hcols) Hnx Hny. unfold nx, ny in *.
  unfold perimeter_filled. simpl. f_equal. unfold fill_y, fill_x.
  rewrite (fill_ends_map fill_ends) by (rewrite fill_ends_length; lia).
  rewrite fill_ends_idemp by lia. rewrite <- list_fmap_compose.
  apply Forall_fmap_ext_1.
  eapply Forall_impl; [apply fill_x_Forall; [lia|exact Hcols]|].
  intros col Hcol. simpl in *. apply fill_ends_idemp. lia.
Qed.

(** The two fills commute: filling the y edges first and the x edges after
    gives the same array. *)
Lemma fill_order_immaterial (vals : list (list num)) :
  2 ≤ length vals → fill_x (fill_y vals) = fill_y (fill_x vals).
Proof. intros Hlen. unfold fill_x, fill_y. by apply fill_ends_map. Qed.

(** C8: on a grid with at least two points per axis, [_fill_perimeter]
    assigns the two x edges first (position 0 from position 1, then the last
    position from the one before it) and the two y edges after, in place.  Each
    corner cell is covered by exactly two of the four assignments, an x one and
    then a y one, so its final value is the y fill of the x-filled array; every
    cell off the perimeter is covered by none and keeps its value. *)
Theorem fill_perimeter_x_then_y σ da g :
  heap σ !! da = Some g → wf_grid g → 2 ≤ nx g → 2 ≤ ny g →
  ∃ σ' new,
    _fill_perimeter da σ = (Ok da, σ')
    ∧ heap σ' = <[da := perimeter_filled g]> (heap σ)
    ∧ trace σ' = trace σ ++ new
    ∧ new = [EvAssign da X 0; EvAssign da X (nx g - 1);
             EvAssign da Y 0; EvAssign da Y (ny g - 1)]
    ∧ (∀ i j, i < nx g → j < ny g →
         cell (x_filled g) i j = cell g (inner (nx g) i) j
         ∧ cell (perimeter_filled g) i j = cell (x_filled g) i (inner (ny g) j))
    ∧ (∀ i j, (i = 0 ∨ i = nx g - 1) → (j = 0 ∨ j = ny g - 1) →
         overwrites new da i j = 2
         ∧ cell (perimeter_filled g) i j = cell (x_filled g) i (inner (ny g) j))
    ∧ (∀ i j, 0 < i < nx g - 1 → 0 < j < ny g - 1 →
         overwrites new da i j = 0
         ∧ cell (perimeter_filled g) i j = cell g i j).
Proof.
  intros Hda Hwf Hnx Hny. eexists _, _.
  split; [by apply fill_perimeter_run|]. simpl.
  split; [done|]. split; [done|]. split; [done|].
  split; [|split].
  - intros i j Hi Hj. split; [by apply cell_x_filled|by apply cell_perimeter_filled].
  - intros i j Hi Hj. split.
    + unfold overwrites. rewrite !filter_cons, filter_nil. simpl.
      repeat case_decide; simpl;
        repeat match goal with
               | H : bool_decide _ = true |- _ => apply bool_decide_eq_true in H
               | H : ¬ bool_decide _ = true |- _ => rewrite bool_decide_eq_true in H
               end; lia.
    + apply cell_perimeter_filled; try done; lia.
  - intros i j Hi Hj. split.
    + unfold overwrites. rewrite !filter_cons, filter_nil. simpl.
      repeat case_decide; simpl;
        repeat match goal with
               | H : bool_decide _ = true |- _ => apply bool_decide_eq_true in H
               | H : ¬ bool_decide _ = true |- _ => rewrite bool_decide_eq_true in H
               end; lia.
    + rewrite cell_perimeter_filled, cell_x_filled by (try done; lia).
      unfold inner. f_equal; lia.
Qed.

(** C9: on a grid with at least two points per axis, a second
    [_fill_perimeter] on the same object leaves the array exactly as the first
    one left it. *)
Theorem fill_perimeter_idempotent σ da g :
  heap σ !! da = Some g → wf_grid g → 2 ≤ nx g → 2 ≤ ny g →
  ∃ σ1 σ2,
    _fill_perimeter da σ = (Ok da, σ1)
    ∧ _fill_perimeter da σ1 = (Ok da, σ2)
    ∧ heap σ1 !! da = Some (perimeter_filled g)
    ∧ heap σ2 = heap σ1.
Proof.
  intros Hda Hwf Hnx Hny.
  pose proof (fill_perimeter_run σ da g Hda Hwf Hnx Hny) as H1.
  set (σ1 := mkState _ _) in H1.
  assert (heap σ1 !! da = Some (perimeter_filled g)) as Hda1
    by (by eapply heap_insert_lookup).
  pose proof (fill_perimeter_run σ1 da (perimeter_filled g) Hda1
                (wf_perimeter_filled g Hwf Hnx) Hnx Hny) as H2.
  eexists _, _. split; [exact H1|]. split; [exact H2|]. split; [exact Hda1|].
  simpl. rewrite perimeter_filled_idemp by done. by rewrite list_insert_insert_eq.
Qed.

(** ** Dictionaries *)

Lemma dict_lookup_Some_key {V} (d : dict V) (key : string) :
  key ∈ dict_keys d → ∃ v, dict_lookup d key = Some v.
Proof.
  unfold dict_keys. induction d as [|[k v] d IH]; simpl.
  - by intros ?%elem_of_nil.
  - intros [->|Hin]%elem_of_cons.
    + exists v. by rewrite decide_True.
    + case_decide; eauto.
Qed.

Lemma dict_lookup_None_key {V} (d : dict V) (key : string) :
  key ∉ dict_keys d → dict_lookup d key = None.
Proof.
  unfold dict_keys. induction d as [|[k v] d IH]; simpl; [done|].
  intros Hnin. apply not_elem_of_cons in Hnin as [Hne Hnin].
  rewrite decide_False by done. by apply IH.
Qed.

Lemma dict_lookup_elem {V} (d : dict V) (key : string) (v : V) :
  NoDup (dict_keys d) → (key, v) ∈ d → dict_lookup d key = Some v.
Proof.
  unfold dict_keys. induction d as [|[k w] d IH]; simpl.
  - by intros _ ?%elem_of_nil.
  - intros [Hnin Hnd]%NoDup_cons [[= -> ->]|Hin]%elem_of_cons.
    + by rewrite decide_True.
    + rewrite decide_False; [by apply IH|].
      intros ->. apply Hnin. apply list_elem_of_fmap. by exists (key, v).
Qed.

Lemma dict_setitem_fresh {V} (d : dict V) (key : string) (v : V) :
  key ∉ dict_keys d → dict_setitem d key v = d ++ [(key, v)].
Proof.
  unfold dict_keys. induction d as [|[k w] d IH]; simpl; [done|].
  intros Hnin. apply not_elem_of_cons in Hnin as [Hne Hnin].
  rewrite decide_False by done. by rewrite IH.
Qed.

(** ** align_coordinates *)

Lemma collect_bad_vals_compatible (keys : list string) (ps pf : Projection) acc :
  compatible ps pf → keys ⊆ dict_keys ps →
  collect_bad_vals keys ps pf acc = Ok acc.
Proof.
  intros Hc. unfold compatible in Hc. rewrite Forall_forall in Hc.
  induction keys as [|key keys IH]; intros Hsub; simpl; [done|].
  assert (key ∈ dict_keys ps) as Hin by (apply Hsub; left).
  assert (keys ⊆ dict_keys ps) as Hsub' by (intros k Hk; apply Hsub; by right).
  case_decide as Ht; [by apply IH|].
  destruct (dict_lookup_Some_key ps key Hin) as [v Hv].
  destruct (Hc key) as [Hk|Hk]; [apply elem_of_app; by left|done|].
  unfold dict_getitem. rewrite <- Hk, Hv. simpl.
  rewrite decide_False by (intros Hne; by apply Hne). by apply IH.
Qed.

Lemma aligned_value_compatible g ps pf sx sy fx fy :
  compatible ps pf → has_offsets ps sx sy → has_offsets pf fx fy →
  aligned_value g ps pf = Ok (shifted g (fx - sx) (fy - sy)).
Proof.
  intros Hc [Hsx Hsy] [Hfx Hfy]. unfold aligned_value.
  rewrite collect_bad_vals_compatible by done. simpl.
  unfold dict_getitem. rewrite Hsx, Hfx, Hsy, Hfy. simpl.
  unfold shifted. f_equal. f_equal; apply list_fmap_ext; intros i x _; ring.
Qed.

Lemma shift_coord_length c s f c' : shift_coord c s f = Ok c' → length c' = length c.
Proof.
  unfold shift_coord. destruct s, f; simpl; try done.
  intros [= <-]. by rewrite length_fmap.
Qed.

(** On success the input object is copied, the copy is given the shifted
    coordinates, and nothing is assigned in place; an error leaves the state
    as it was. *)
Lemma align_coordinates_run σ da g ps pf :
  heap σ !! da = Some g →
  align_coordinates da ps pf σ
  = match aligned_value g ps pf with
    | Ok g' => (Ok (S (length (heap σ))), mkState (heap σ ++ [g; g']) (trace σ))
    | Raise e => (Raise e, σ)
    end.
Proof.
  intros Hda. unfold align_coordinates, aligned_value.
  rewrite bind_run, lift_run.
  destruct (collect_bad_vals _ _ _ _) as [bad|e]; simpl; [|done].
  case_decide; [done|].
  rewrite bind_run, lift_run.
  destruct (dict_getitem ps "x_0") as [xs|e]; simpl; [|done].
  rewrite bind_run, lift_run.
  destruct (dict_getitem pf "x_0") as [xf|e]; simpl; [|done].
  rewrite bind_run, lift_run.
  destruct (dict_getitem ps "y_0") as [ys|e]; simpl; [|done].
  rewrite bind_run, lift_run.
  destruct (dict_getitem pf "y_0") as [yf|e]; simpl; [|done].
  rewrite bind_run, (getitem_coord_run _ _ _ X Hda), bind_run, lift_run. simpl coord.
  destruct (shift_coord (coord_x g) xs xf) as [x_final|e] eqn:Ex; simpl; [|done].
  rewrite bind_run, (getitem_coord_run _ _ _ Y Hda), bind_run, lift_run. simpl coord.
  destruct (shift_coord (coord_y g) ys yf) as [y_final|e] eqn:Ey; simpl; [|done].
  unfold copy_deep, assign_coords.
  rewrite bind_run, bind_run, (deref_run _ _ _ Hda). unfold alloc at 1.
  rewrite bind_run. unfold deref. simpl heap.
  rewrite lookup_app_r by lia. rewrite Nat.sub_diag. simpl.
  rewrite decide_True by (split; by eapply shift_coord_length).
  unfold alloc. simpl. rewrite length_app, <- app_assoc. simpl.
  do 2 f_equal. lia.
Qed.

Lemma align_coordinates_computes σ da g ps pf :
  heap σ !! da = Some g →
  computes (align_coordinates da ps pf) σ (aligned_value g ps pf).
Proof.
  intros Hda. pose proof (align_coordinates_run σ da g ps pf Hda) as Hrun.
  unfold computes. destruct (aligned_value g ps pf) as [g'|e]; [|by eexists].
  eexists _, _. split; [exact Hrun|]. simpl. split.
  - by apply prefix_app_r.
  - rewrite lookup_app_r by lia. by replace (S (length (heap σ)) - length (heap σ)) with 1 by lia.
Qed.

(** C5: when every parameter other than the false easting and northing is
    equal, [align_coordinates] returns a new array with the values of the input,
    its x coordinates each shifted by (final x_0 - start x_0) and its y
    coordinates by (final y_0 - start y_0); the input object keeps its content
    and nothing is assigned in place. *)
Theorem align_coordinates_shifts σ da g ps pf sx sy fx fy :
  heap σ !! da = Some g →
  compatible ps pf → has_offsets ps sx sy → has_offsets pf fx fy →
  ∃ r σ' g',
    align_coordinates da ps pf σ = (Ok r, σ')
    ∧ heap σ' !! r = Some g'
    ∧ values g' = values g
    ∧ coord_x g' = (λ x, x + (fx - sx))%Qc <$> coord_x g
    ∧ coord_y g' = (λ y, y + (fy - sy))%Qc <$> coord_y g
    ∧ r ≠ da
    ∧ heap σ' !! da = Some g
    ∧ heap σ `prefix_of` heap σ'
    ∧ trace σ' = trace σ.
Proof.
  intros Hda Hc Hs Hf.
  pose proof (align_coordinates_run σ da g ps pf Hda) as Hrun.
  rewrite (aligned_value_compatible g ps pf sx sy fx fy) in Hrun by done.
  pose proof (lookup_lt_Some _ _ _ Hda) as Hlt.
  eexists _, _, (shifted g (fx - sx) (fy - sy)). split; [exact Hrun|]. simpl.
  split; [|repeat split].
  - rewrite lookup_app_r by lia.
    by replace (S (length (heap σ)) - length (heap σ)) with 1 by lia.
  - lia.
  - by apply lookup_app_l_Some.
  - by apply prefix_app_r.
Qed.

(** *** The parameter check *)

Lemma dict_keys_cons {V} (k : string) (v : V) (d : dict V) :
  dict_keys ((k, v) :: d) = k :: dict_keys d.
Proof. reflexivity. Qed.

Lemma dict_keys_app {V} (d1 d2 : dict V) :
  dict_keys (d1 ++ d2) = dict_keys d1 ++ dict_keys d2.
Proof. unfold dict_keys. apply fmap_app. Qed.

Lemma mismatches_cons (k : string) (v : pval) (rest pf : Projection) :
  mismatches ((k, v) :: rest) pf
  = (if decide (k ∈ translation_keys) then []
     else match dict_lookup pf k with
          | Some vf => if decide (vf ≠ v) then [(k, (v, vf))] else []
          | None => []
          end) ++ mismatches rest pf.
Proof.
  unfold mismatches. cbn [omap list_omap]. simpl.
  case_decide; [done|]. destruct (dict_lookup pf k); [|done]. by case_decide.
Qed.

Lemma collect_bad_vals_spec (ps pf : Projection) (rest : dict pval) acc :
  (∀ k v, (k, v) ∈ rest → dict_lookup ps k = Some v) →
  dict_keys rest ⊆ dict_keys pf →
  NoDup (dict_keys rest) →
  (∀ k, k ∈ dict_keys acc → k ∉ dict_keys rest) →
  collect_bad_vals (dict_keys rest) ps pf acc = Ok (acc ++ mismatches rest pf).
Proof.
  revert acc. induction rest as [|[k v] rest IH]; intros acc Hps Hsub Hnd Hacc.
  { simpl. by rewrite app_nil_r. }
  rewrite dict_keys_cons in *. apply NoDup_cons in Hnd as [Hk Hnd].
  assert (dict_keys rest ⊆ dict_keys pf) as Hsub'
    by (intros x Hx; apply Hsub; by right).
  assert (∀ k v, (k, v) ∈ rest → dict_lookup ps k = Some v) as Hps'
    by (intros ?? Hin; apply Hps; by right).
  assert (∀ x, x ∈ dict_keys acc → x ∉ dict_keys rest) as Hacc'.
  { intros x Hx Hin. apply (Hacc x Hx). by right. }
  rewrite mismatches_cons. cbn [collect_bad_vals].
  fold translation_keys. case_decide as Ht; [by apply IH|].
  unfold dict_getitem. rewrite (Hps k v) by left.
  destruct (dict_lookup_Some_key pf k) as [vf Hvf]; [apply Hsub; left|].
  rewrite Hvf. cbn [mbind result_bind]. case_decide as Hne.
  - rewrite dict_setitem_fresh; cycle 1.
    { intros Hin. apply (Hacc k Hin). left. }
    rewrite IH; try done.
    + by rewrite <- app_assoc.
    + rewrite dict_keys_app. intros x [Hx|Hx]%elem_of_app; [by apply Hacc'|].
      cbn in Hx. apply list_elem_of_singleton in Hx as ->. done.
  - by apply IH.
Qed.

(** When [proj_final] has every parameter of [proj_start], the check collects
    exactly the mismatched parameters of [proj_start], each with both values,
    and an error is raised exactly when there is one. *)
Lemma align_coordinates_reports σ da g ps pf :
  heap σ !! da = Some g →
  NoDup (dict_keys ps) → dict_keys ps ⊆ dict_keys pf →
  mismatches ps pf ≠ [] →
  align_coordinates da ps pf σ
  = (Raise (ValueError (IncompatibleMapProjections (mismatches ps pf))), σ).
Proof.
  intros Hda Hnd Hsub Hne.
  rewrite (align_coordinates_run σ da g ps pf Hda). unfold aligned_value.
  rewrite (collect_bad_vals_spec ps pf ps []); try done.
  - simpl. rewrite decide_True; [done|].
    destruct (mismatches ps pf); [done|]. simpl. lia.
  - intros k v Hin. by apply dict_lookup_elem.
  - by intros k ?%elem_of_nil.
Qed.

Lemma elem_of_mismatches (ps pf : Projection) key vs vf :
  (key, (vs, vf)) ∈ mismatches ps pf
  ↔ (key, vs) ∈ ps ∧ (key ∉ translation_keys)
    ∧ dict_lookup pf key = Some vf ∧ vf ≠ vs.
Proof.
  unfold mismatches. rewrite list_elem_of_omap. split.
  - intros ([k v] & Hin & Hf). simpl in Hf.
    case_decide; [done|]. destruct (dict_lookup pf k) as [w|] eqn:Ew; [|done].
    case_decide; [|done]. by simplify_eq.
  - intros (Hin & Ht & Hvf & Hne). exists (key, vs). split; [done|]. simpl.
    rewrite decide_False by done. rewrite Hvf. by rewrite decide_True.
Qed.

(** C4: the check of [align_coordinates] runs over the parameters of
    [proj_start] only.  A parameter that only [proj_final] has ([lat_2] of a
    projection with two standard parallels against one built with a single
    parallel) is never compared: the two projections differ in a parameter
    other than [x_0] and [y_0], and no error is raised.  In the other direction
    the missing parameter surfaces as a [KeyError], not as the mismatch report;
    a mismatch in a shared parameter is reported. *)
Theorem align_coordinates_misses_parameter :
  ("lat_2" ∉ translation_keys)
  ∧ dict_lookup proj_one_parallel "lat_2" ≠ dict_lookup proj_ref "lat_2"
  ∧ (align_coordinates 0 proj_one_parallel proj_ref (state_of [coarse_diag])).1
    = Ok 2
  ∧ (align_coordinates 0 proj_ref proj_one_parallel (state_of [coarse_diag])).1
    = Raise (KeyError "lat_2")
  ∧ (align_coordinates 0 proj_ref proj_other_parallel (state_of [coarse_diag])).1
    = Raise (ValueError (IncompatibleMapProjections
               [("lat_2", (PNum (qz 45), PNum (qz 60)))])).
Proof.
  split; [by apply (bool_decide_unpack _)|].
  split; [by apply (bool_decide_unpack _)|].
  split; [by vm_compute|]. split; [by vm_compute|].
  vm_compute. reflexivity.
Qed.

(** ** Sums of array values *)

Lemma num_add_comm (a b : num) : num_add a b = num_add b a.
Proof. destruct a, b; simpl; try done. f_equal. ring. Qed.

Lemma num_add_assoc (a b c : num) :
  num_add a (num_add b c) = num_add (num_add a b) c.
Proof. destruct a, b, c; simpl; try done. f_equal. ring. Qed.

Lemma num_add_0_l (a : num) : num_add (Finite 0%Qc) a = a.
Proof. destruct a; simpl; try done. f_equal. ring. Qed.

Lemma num_add_0_r (a : num) : num_add a (Finite 0%Qc) = a.
Proof. by rewrite num_add_comm, num_add_0_l. Qed.

Lemma np_sum_cons (a : num) (l : list num) :
  np_sum (a :: l) = num_add a (np_sum l).
Proof. reflexivity. Qed.

Lemma np_sum_nil : np_sum [] = Finite 0%Qc.
Proof. reflexivity. Qed.

Lemma np_sum_app (l1 l2 : list num) :
  np_sum (l1 ++ l2) = num_add (np_sum l1) (np_sum l2).
Proof.
  induction l1 as [|a l1 IH].
  - by rewrite app_nil_l, np_sum_nil, num_add_0_l.
  - by rewrite <- app_comm_cons, !np_sum_cons, IH, num_add_assoc.
Qed.

Lemma np_sum_concat (ls : list (list num)) :
  np_sum (concat ls) = np_sum (np_sum <$> ls).
Proof.
  induction ls as [|l ls IH]; [done|].
  rewrite fmap_cons, np_sum_cons. cbn [concat]. by rewrite np_sum_app, IH.
Qed.

Section sums_over_lists.
Context {A : Type}.

Lemma np_sum_fmap_add (f g : A → num) (l : list A) :
  np_sum ((λ x, num_add (f x) (g x)) <$> l)
  = num_add (np_sum (f <$> l)) (np_sum (g <$> l)).
Proof.
  induction l as [|x l IH]; [by rewrite !fmap_nil, np_sum_nil, num_add_0_l|].
  rewrite !fmap_cons, !np_sum_cons, IH.
  rewrite <- !num_add_assoc. f_equal.
  rewrite !num_add_assoc. f_equal. apply num_add_comm.
Qed.

Lemma np_sum_fmap_zero (l : list A) :
  np_sum ((λ _, Finite 0%Qc) <$> l) = Finite 0%Qc.
Proof.
  induction l as [|x l IH]; [done|].
  by rewrite fmap_cons, np_sum_cons, IH, num_add_0_l.
Qed.

End sums_over_lists.

(** Exchange of two finite sums. *)
Lemma np_sum_exchange {A B} (f : A → B → num) (la : list A) (lb : list B) :
  np_sum ((λ a, np_sum ((λ b, f a b) <$> lb)) <$> la)
  = np_sum ((λ b, np_sum ((λ a, f a b) <$> la)) <$> lb).
Proof.
  induction la as [|a la IH].
  - rewrite fmap_nil. symmetry. apply np_sum_fmap_zero.
  - rewrite fmap_cons, np_sum_cons, IH.
    rewrite <- (np_sum_fmap_add (λ b, f a b)). done.
Qed.

(** ** Windows *)

Section windows.
Context {A : Type}.
Implicit Types l : list A.

Lemma blocks_length (k : nat) l : length (blocks k l) = length l / k.
Proof. unfold blocks. by rewrite length_fmap, length_seq. Qed.

Lemma blocks_succ (k m : nat) l :
  0 < k → length l = S m * k →
  blocks k l = take k l :: blocks k (drop k l).
Proof.
  intros Hk Hlen. unfold blocks.
  rewrite length_drop, Hlen.
  replace (S m * k / k) with (S m) by (rewrite Nat.div_mul; lia).
  replace ((S m * k - k) / k) with m
    by (replace (S m * k - k) with (m * k) by lia; rewrite Nat.div_mul; lia).
  rewrite <- cons_seq, fmap_cons. simpl. f_equal.
  rewrite <- fmap_S_seq, <- list_fmap_compose.
  apply list_fmap_ext. intros i I _. simpl.
  rewrite drop_drop. do 2 f_equal; lia.
Qed.

Lemma blocks_nil (k : nat) l : length l = 0 → blocks k l = [].
Proof. intros Hlen. unfold blocks. rewrite Hlen. by destruct k. Qed.

(** The windows of a list whose length is a multiple of [k] partition it. *)
Lemma concat_blocks (k m : nat) l :
  0 < k → length l = m * k → concat (blocks k l) = l.
Proof.
  intros Hk. revert l. induction m as [|m IH]; intros l Hlen.
  - rewrite blocks_nil by lia. simpl. destruct l; [done|simpl in Hlen; lia].
  - rewrite (blocks_succ k m) by done. simpl.
    rewrite IH by (rewrite length_drop; lia). apply take_drop.
Qed.

Lemma blocks_Forall (P : A → Prop) (k : nat) l :
  Forall P l → Forall (Forall P) (blocks k l).
Proof.
  intros HP. unfold blocks. apply Forall_fmap, Forall_forall. intros I _. simpl.
  by apply Forall_take, Forall_drop.
Qed.
End windows.

Lemma seq_blocks_sum (k n : nat) (col : list num) :
  0 < k → length col = n * k →
  np_sum ((λ J, np_sum (take k (drop (J * k) col))) <$> seq 0 n) = np_sum col.
Proof.
  intros Hk Hlen.
  transitivity (np_sum (concat (blocks k col)));
    [|by rewrite (concat_blocks k n col Hk Hlen)].
  rewrite np_sum_concat. unfold blocks. rewrite <- list_fmap_compose.
  rewrite Hlen. rewrite Nat.div_mul; [done|lia].
Qed.

Lemma block_group_sum (k n : nat) (cols : list (list num)) :
  0 < k → Forall (λ col, length col = n * k) cols →
  np_sum ((λ J, np_sum (block_values k cols J)) <$> seq 0 n) = np_sum (concat cols).
Proof.
  intros Hk Hcols. unfold block_values.
  erewrite list_fmap_ext; cycle 1.
  { intros i J _. rewrite np_sum_concat, <- list_fmap_compose. reflexivity. }
  simpl.
  rewrite <- (np_sum_exchange (λ col J, np_sum (take k (drop (J * k) col)))).
  rewrite np_sum_concat. f_equal.
  apply Forall_fmap_ext_1. eapply Forall_impl; [exact Hcols|].
  intros col Hcol. simpl in *. by apply seq_blocks_sum.
Qed.

Lemma coarsen_reduce_total (g : DataArray) (k : nat) (m n : nat) :
  0 < k → length (values g) = m * k →
  Forall (λ col, length col = n * k) (values g) →
  np_sum (concat ((λ cols, (λ J, np_sum (block_values k cols J)) <$> seq 0 n)
                    <$> blocks k (values g)))
  = np_sum (concat (values g)).
Proof.
  intros Hk Hlen Hcols.
  rewrite np_sum_concat, <- list_fmap_compose.
  transitivity (np_sum (concat (concat (blocks k (values g)))));
    [|by rewrite (concat_blocks k m (values g) Hk Hlen)].
  rewrite (np_sum_concat (concat _)).
  pose proof (blocks_Forall _ k (values g) Hcols) as HB.
  induction HB as [|cols bs Hc _ IH]; [done|].
  rewrite fmap_cons, np_sum_cons. simpl. rewrite fmap_app, np_sum_app.
  f_equal; [|exact IH].
  simpl. rewrite <- np_sum_concat. by apply block_group_sum.
Qed.

(** ** coarsen *)

Lemma coarsen_run σ da g k agg :
  heap σ !! da = Some g →
  coarsen da k agg σ
  = match coarsen_reduce g k agg with
    | Ok g' => (Ok (length (heap σ)), mkState (heap σ ++ [g']) (trace σ))
    | Raise e => (Raise e, σ)
    end.
Proof.
  intros Hda. unfold coarsen.
  rewrite bind_run, (deref_run _ _ _ Hda), bind_run, lift_run.
  by destruct (coarsen_reduce g k agg).
Qed.

Lemma coarsen_computes σ da g k agg :
  heap σ !! da = Some g →
  computes (coarsen_finescale_emissions da k agg) σ (coarsen_reduce g k agg).
Proof.
  intros Hda. pose proof (coarsen_run σ da g k agg Hda) as Hrun.
  unfold computes, coarsen_finescale_emissions.
  destruct (coarsen_reduce g k agg) as [g'|e]; [|by eexists].
  eexists _, _. split; [exact Hrun|]. simpl. split.
  - by apply prefix_app_r.
  - rewrite lookup_app_r by lia. by rewrite Nat.sub_diag.
Qed.

Lemma exact_multiple (n k : nat) : 0 < k → n `mod` k = 0 → n = n / k * k.
Proof.
  intros Hk Hmod. pose proof (Nat.div_mod_eq n k). lia.
Qed.

Lemma coarsen_reduce_exact g (k : Z) agg :
  (0 < k)%Z → nx g `mod` Z.to_nat k = 0 → ny g `mod` Z.to_nat k = 0 →
  coarsen_reduce g k agg
  = Ok (mkDataArray
          (window_mean <$> blocks (Z.to_nat k) (coord_x g))
          (window_mean <$> blocks (Z.to_nat k) (coord_y g))
          ((λ cols, (λ J, agg (block_values (Z.to_nat k) cols J))
                      <$> seq 0 (ny g / Z.to_nat k))
             <$> blocks (Z.to_nat k) (values g))).
Proof.
  intros Hk Hx Hy. unfold coarsen_reduce, nx, ny in *.
  destruct (Z.leb_spec k 0); [lia|].
  by rewrite !decide_True by done.
Qed.

(** C6: when the x and y lengths of the fine grid are multiples of the odd
    factor [k], coarsening with [np.sum] returns a grid whose values add up
    to exactly what the values of the fine grid add up to. *)
Theorem coarsen_conserves_total σ da F k :
  heap σ !! da = Some F → wf_grid F →
  (0 < k)%Z → Z.odd k = true →
  nx F `mod` Z.to_nat k = 0 → ny F `mod` Z.to_nat k = 0 →
  ∃ r σ' A,
    coarsen_finescale_emissions da k np_sum σ = (Ok r, σ')
    ∧ heap σ' !! r = Some A
    ∧ total A = total F.
Proof.
  intros Hda (_ & _ & Hlen & Hcols) Hk _ Hx Hy.
  pose proof (coarsen_run σ da F k np_sum Hda) as Hrun.
  rewrite (coarsen_reduce_exact F k np_sum Hk Hx Hy) in Hrun.
  eexists _, _, _. split; [exact Hrun|]. split.
  - simpl. rewrite lookup_app_r by lia. by rewrite Nat.sub_diag.
  - unfold total. simpl. unfold nx, ny in *.
    apply (coarsen_reduce_total F (Z.to_nat k) (length (coord_x F) / Z.to_nat k)).
    + lia.
    + rewrite Hlen. apply exact_multiple; [lia|done].
    + eapply Forall_impl; [exact Hcols|]. intros col Hcol. simpl in *.
      rewrite Hcol. apply exact_multiple; [lia|done].
Qed.

(** ** Arithmetic on arrays that share their grid *)

Lemma filter_all {A} (P : A → Prop) `{∀ x, Decision (P x)} (l : list A) :
  Forall P l → filter P l = l.
Proof.
  induction 1 as [|x l Hx _ IH]; [done|].
  by rewrite filter_cons_True, IH.
Qed.

Lemma labelled_rows (f : num → num → num) (cx cy : list Qc)
    (va vb : list (list num)) :
  NoDup cx → NoDup cy →
  length va = length cx → Forall (λ col, length col = length cy) va →
  length vb = length cx → Forall (λ col, length col = length cy) vb →
  (λ x, (λ y, f (match index_of cx x, index_of cy y with
                  | Some p, Some q => (va !!! p) !!! q
                  | _, _ => NaN
                  end)
                 (match index_of cx x, index_of cy y with
                  | Some p, Some q => (vb !!! p) !!! q
                  | _, _ => NaN
                  end)) <$> cy) <$> cx
  = zip_with (zip_with f) va vb.
Proof.
  intros Hndx Hndy Hla Hca Hlb Hcb.
  apply list_eq_same_length with (length cx).
  { rewrite length_zip_with. lia. }
  { by rewrite length_fmap. }
  intros i row row' Hi Hrow Hrow'.
  rewrite list_lookup_fmap in Hrow.
  destruct (cx !! i) as [xi|] eqn:Exi; [|done]. simpl in Hrow. simplify_eq.
  apply lookup_zip_with_Some in Hrow' as (ai & bi & -> & Hai & Hbi).
  rewrite (index_of_lookup cx i xi) by done.
  rewrite Forall_forall in Hca, Hcb.
  assert (length ai = length cy) as Hlai by (apply Hca; by eapply list_elem_of_lookup_2).
  assert (length bi = length cy) as Hlbi by (apply Hcb; by eapply list_elem_of_lookup_2).
  rewrite (list_lookup_total_correct va i ai), (list_lookup_total_correct vb i bi) by done.
  apply list_eq_same_length with (length cy).
  { rewrite length_zip_with. lia. }
  { by rewrite length_fmap. }
  intros j v v' Hj Hv Hv'.
  rewrite list_lookup_fmap in Hv.
  destruct (cy !! j) as [yj|] eqn:Eyj; [|done]. simpl in Hv. simplify_eq.
  apply lookup_zip_with_Some in Hv' as (aij & bij & -> & Haij & Hbij).
  rewrite (index_of_lookup cy j yj) by done.
  by rewrite (list_lookup_total_correct ai j aij), (list_lookup_total_correct bi j bij).
Qed.

(** On operands with one and the same grid, the label-by-label combination
    is the position-by-position one. *)
Lemma binary_op_elementwise (f : num → num → num) (a b : DataArray) :
  wf_grid a → wf_grid b →
  coord_x b = coord_x a → coord_y b = coord_y a →
  binary_op f a b = elementwise f a b.
Proof.
  intros Hwa Hwb Hx Hy.
  pose proof (wf_grid_NoDup a X Hwa) as Hndx.
  pose proof (wf_grid_NoDup a Y Hwa) as Hndy. simpl in Hndx, Hndy.
  destruct Hwa as (_ & _ & Hla & Hca), Hwb as (_ & _ & Hlb & Hcb).
  unfold binary_op, elementwise, at_label, cell. rewrite Hx, Hy in *.
  rewrite !filter_all by (by apply Forall_forall).
  f_equal. by apply labelled_rows.
Qed.

Lemma wf_elementwise f a b :
  wf_grid a → wf_grid b → coord_x b = coord_x a → coord_y b = coord_y a →
  wf_grid (elementwise f a b).
Proof.
  intros (Hx & Hy & Hla & Hca) (_ & _ & Hlb & Hcb) Ex Ey. rewrite Ex, Ey in *.
  repeat split; simpl; try done.
  - rewrite length_zip_with. lia.
  - apply Forall_forall. intros col (i & ai & bi & -> & Hai & Hbi)%elem_of_lookup_zip_with.
    rewrite Forall_forall in Hca, Hcb. rewrite length_zip_with.
    rewrite (Hca ai), (Hcb bi) by (by eapply list_elem_of_lookup_2). lia.
Qed.

Lemma wf_fillna g v : wf_grid g → wf_grid (fillna g v).
Proof.
  intros (Hx & Hy & Hl & Hc). repeat split; simpl; try done.
  - by rewrite length_fmap.
  - apply Forall_fmap. eapply Forall_impl; [exact Hc|].
    intros col Hcol. simpl. by rewrite length_fmap.
Qed.

#[export] Hint Resolve wf_elementwise wf_fillna : grid.

Lemma cell_elementwise f a b i j :
  wf_grid a → wf_grid b → coord_x b = coord_x a → coord_y b = coord_y a →
  i < nx a → j < ny a →
  cell (elementwise f a b) i j = f (cell a i j) (cell b i j).
Proof.
  intros (_ & _ & Hla & Hca) (_ & _ & Hlb & Hcb) Ex Ey Hi Hj.
  unfold nx, ny in *. rewrite Ex, Ey in *. unfold cell, elementwise. simpl.
  rewrite Forall_forall in Hca, Hcb.
  assert (length (values a !!! i) = length (coord_y a)) as Hai
    by (apply Hca, list_elem_of_lookup_total_2; lia).
  assert (length (values b !!! i) = length (coord_y a)) as Hbi
    by (apply Hcb, list_elem_of_lookup_total_2; lia).
  apply list_lookup_total_correct.
  assert (zip_with (zip_with f) (values a) (values b) !! i
          = Some (zip_with f (values a !!! i) (values b !!! i))) as Hrow.
  { apply lookup_zip_with_Some. eexists _, _. split; [done|].
    split; apply list_lookup_lookup_total_lt; lia. }
  rewrite (list_lookup_total_correct _ _ _ Hrow).
  apply lookup_zip_with_Some. eexists _, _. split; [done|].
  split; apply list_lookup_lookup_total_lt; lia.
Qed.

Lemma cell_fillna g v i j :
  wf_grid g → i < nx g → j < ny g →
  cell (fillna g v) i j = fillna_value v (cell g i j).
Proof.
  intros (_ & _ & Hl & Hc) Hi Hj. unfold nx, ny, cell, fillna in *. simpl.
  rewrite Forall_forall in Hc.
  assert (length (values g !!! i) = length (coord_y g)) as Hgi
    by (apply Hc, list_elem_of_lookup_total_2; lia).
  rewrite (list_lookup_total_fmap (fmap (fillna_value v))) by lia.
  by rewrite (list_lookup_total_fmap (fillna_value v)) by lia.
Qed.

(** ** interp_like *)

Lemma interp_like_nearest_wf c f d :
  wf_grid f → interp_like_nearest c f = Ok d →
  wf_grid d ∧ coord_x d = coord_x f ∧ coord_y d = coord_y f.
Proof.
  intros (Hx & Hy & _ & _). unfold interp_like_nearest.
  case_decide; [done|]. intros [= <-]. unfold wf_grid. cbn [coord_x coord_y values].
  repeat split; try done.
  - by rewrite length_fmap.
  - apply Forall_fmap, Forall_forall. intros tx _. unfold compose. by rewrite length_fmap.
Qed.

Lemma interp_like_run σ c f C F :
  heap σ !! c = Some C → heap σ !! f = Some F →
  interp_like c f σ
  = match interp_like_nearest C F with
    | Ok d => (Ok (length (heap σ)), mkState (heap σ ++ [d]) (trace σ))
    | Raise e => (Raise e, σ)
    end.
Proof.
  intros Hc Hf. unfold interp_like.
  rewrite bind_run, (deref_run _ _ _ Hc), bind_run, (deref_run _ _ _ Hf).
  rewrite bind_run, lift_run. by destruct (interp_like_nearest C F).
Qed.

Lemma binary_run (f : num → num → num) σ a b A B :
  heap σ !! a = Some A → heap σ !! b = Some B →
  (ga ← deref a; gb ← deref b; alloc (binary_op f ga gb)) σ
  = (Ok (length (heap σ)), mkState (heap σ ++ [binary_op f A B]) (trace σ)).
Proof.
  intros Ha Hb. by rewrite bind_run, (deref_run _ _ _ Ha), bind_run, (deref_run _ _ _ Hb).
Qed.

Lemma fillna_ref_run σ da g v :
  heap σ !! da = Some g →
  fillna_ref da v σ
  = (Ok (length (heap σ)), mkState (heap σ ++ [fillna g v]) (trace σ)).
Proof. intros Hda. unfold fillna_ref. by rewrite bind_run, (deref_run _ _ _ Hda). Qed.

(** ** Resampling onto the fine grid *)

Lemma fill_perimeter_raise σ da g :
  heap σ !! da = Some g → wf_grid g → ¬ (2 ≤ nx g ∧ 2 ≤ ny g) →
  ∃ σ', _fill_perimeter da σ = (Raise IndexError, σ').
Proof.
  intros Hda Hwf Hsmall. unfold _fill_perimeter.
  pose proof (wf_grid_NoDup g X Hwf) as HndX. simpl in HndX.
  rewrite bind_run, (getitem_coord_run _ _ _ X Hda).
  rewrite bind_run, (getitem_coord_run _ _ _ Y Hda). simpl coord.
  unfold nx, ny in *.
  destruct (decide (2 ≤ length (coord_x g))) as [Hnx|Hnx].
  - rewrite bind_run.
    rewrite (loc_copy_run σ da g X (coord_x g) 0 1 0 1
               (coord_x g !!! 0) (coord_x g !!! 1)); try done;
      try (apply (py_index_nonneg _ 0) || apply (py_index_nonneg _ 1));
      try (apply lookup_lt_total; lia).
    set (g1 := copy_slab g X 1 0). set (σ1 := mkState _ _).
    assert (heap σ1 !! da = Some g1) as Hda1 by (by eapply heap_insert_lookup).
    rewrite bind_run.
    rewrite (loc_copy_run σ1 da g1 X (coord_x g) (-1) (-2) (length (coord_x g) - 1)
               (length (coord_x g) - 2)
               (coord_x g !!! (length (coord_x g) - 1))
               (coord_x g !!! (length (coord_x g) - 2))); try done;
      try (apply (py_index_neg _ 1) || apply (py_index_neg _ 2); try lia);
      try (apply lookup_lt_total; simpl; lia).
    rewrite bind_run. unfold loc_copy at 1.
    rewrite bind_run, lift_run, (py_index_short _ 1) by lia. by eexists.
  - rewrite bind_run. unfold loc_copy at 1.
    rewrite bind_run, lift_run, (py_index_short _ 1) by lia. by eexists.
Qed.

Lemma insert_last {A} (h : list A) (x y : A) :
  <[length h := y]> (h ++ [x]) = h ++ [y].
Proof. rewrite insert_app_r_alt by lia. by rewrite Nat.sub_diag. Qed.

Lemma lookup_last {A} (h : list A) (x : A) : (h ++ [x]) !! length h = Some x.
Proof. rewrite lookup_app_r by lia. by rewrite Nat.sub_diag. Qed.

(** The two steps [interp_like] then [_fill_perimeter], followed by [k]: the
    interpolated array is a new object, filled in place. *)
Lemma resample_bind {B} σ c f C F (k : ref → M B) :
  heap σ !! c = Some C → heap σ !! f = Some F → wf_grid F →
  (∃ D, resample_value C F = Ok D
        ∧ wf_grid D ∧ coord_x D = coord_x F ∧ coord_y D = coord_y F
        ∧ (r ← interp_like c f; r' ← _fill_perimeter r; k r') σ
          = k (length (heap σ))
              (mkState (heap σ ++ [D])
                       (trace σ ++ fill_events (length (heap σ)) D)))
  ∨ (∃ e σ', resample_value C F = Raise e
             ∧ (r ← interp_like c f; r' ← _fill_perimeter r; k r') σ
               = (Raise e, σ')).
Proof.
  intros Hc Hf Hwf. unfold resample_value.
  rewrite bind_run, (interp_like_run σ c f C F Hc Hf).
  destruct (interp_like_nearest C F) as [D0|e] eqn:ED0; [|right; by eexists _, _].
  destruct (interp_like_nearest_wf C F D0 Hwf ED0) as (HwD0 & Hx0 & Hy0).
  cbn [mbind result_bind]. unfold perimeter_fill_value.
  set (σ1 := mkState _ _).
  assert (heap σ1 !! length (heap σ) = Some D0) as Hr by apply lookup_last.
  case_decide as Hsize.
  - left. exists (perimeter_filled D0). split; [done|].
    split; [apply wf_perimeter_filled; [done|lia]|]. split; [done|]. split; [done|].
    rewrite bind_run.
    rewrite (fill_perimeter_run σ1 _ D0 Hr HwD0) by lia.
    subst σ1. simpl. by rewrite insert_last.
  - right. destruct (fill_perimeter_raise σ1 _ D0 Hr HwD0 Hsize) as [σ' Hσ'].
    exists IndexError, σ'. split; [done|].
    by rewrite bind_run, Hσ'.
Qed.

Lemma resample_value_ok C F :
  wf_grid F → 2 ≤ nx F → 2 ≤ ny F → coord_x C ≠ [] → coord_y C ≠ [] →
  ∃ D0, interp_like_nearest C F = Ok D0
        ∧ resample_value C F = Ok (perimeter_filled D0)
        ∧ wf_grid D0 ∧ coord_x D0 = coord_x F ∧ coord_y D0 = coord_y F.
Proof.
  intros Hwf Hnx Hny Hcx Hcy. unfold resample_value.
  destruct (interp_like_nearest C F) as [D0|e] eqn:ED0.
  - destruct (interp_like_nearest_wf C F D0 Hwf ED0) as (HwD0 & Hx0 & Hy0).
    exists D0. split; [done|]. split; [|done].
    cbn [mbind result_bind]. unfold perimeter_fill_value, nx, ny in *.
    rewrite decide_True; [done|]. rewrite Hx0, Hy0. lia.
  - unfold interp_like_nearest in ED0. case_decide as Hempty; [|done].
    by destruct Hempty.
Qed.

(** ** fractional_contribution *)

Lemma fractional_contribution_computes σ f c F C :
  heap σ !! f = Some F → heap σ !! c = Some C → wf_grid F →
  computes (fractional_contribution f c) σ (fraction_value F C).
Proof.
  intros Hf Hc Hwf. unfold fractional_contribution, fraction_value.
  destruct (resample_bind σ c f C F
              (λ r, q ← truediv f r; fillna_ref q (Finite 0%Qc)) Hc Hf Hwf)
    as [(D & HD & HwD & Hx & Hy & Hrun)|(e & σ' & HD & Hrun)];
    rewrite HD; cbn [mbind result_bind computes]; [|by eexists].
  cbv beta in Hrun. eexists _, _. split.
  { rewrite Hrun. set (σ1 := mkState _ _).
    assert (heap σ1 !! f = Some F) as Hf1 by (by apply lookup_app_l_Some).
    assert (heap σ1 !! length (heap σ) = Some D) as HD1 by apply lookup_last.
    unfold truediv.
    rewrite bind_run, (binary_run num_div σ1 f _ F D Hf1 HD1).
    rewrite (binary_op_elementwise num_div F D Hwf HwD Hx Hy).
    set (σ2 := mkState _ _).
    rewrite (fillna_ref_run σ2 _ (elementwise num_div F D)) by apply lookup_last.
    reflexivity. }
  simpl. split.
  - rewrite <- !app_assoc. by apply prefix_app_r.
  - apply lookup_last.
Qed.

Lemma fraction_value_wf F C R :
  wf_grid F → fraction_value F C = Ok R →
  wf_grid R ∧ coord_x R = coord_x F ∧ coord_y R = coord_y F.
Proof.
  intros Hwf. unfold fraction_value, resample_value.
  destruct (interp_like_nearest C F) as [D0|e] eqn:ED0; [|done].
  destruct (interp_like_nearest_wf C F D0 Hwf ED0) as (HwD0 & Hx0 & Hy0).
  cbn [mbind result_bind]. unfold perimeter_fill_value.
  case_decide as Hsize; [|done]. cbn [mbind result_bind]. intros [= <-].
  split; [|done]. apply wf_fillna, wf_elementwise; try done.
  apply wf_perimeter_filled; [done|lia].
Qed.

Lemma num_div_nan_l (d : num) : num_div NaN d = NaN.
Proof. by destruct d. Qed.

Lemma fillna_value_not_nan (v c : num) : isnan v = false → isnan (fillna_value v c) = false.
Proof. intros Hv. unfold fillna_value. by destruct c. Qed.

(** C10: [fractional_contribution] replaces every [NaN] of the quotient
    fine / NN(coarse) by 0, whatever its origin: the returned grid holds no
    [NaN], and a [NaN] in the fine grid gives exactly 0 at that cell.  A
    nonzero finite value over a zero denominator gives an infinity, which is
    kept. *)
Theorem fractional_contribution_fills_nan σ f c F C :
  heap σ !! f = Some F → heap σ !! c = Some C →
  wf_grid F → wf_grid C →
  2 ≤ nx F → 2 ≤ ny F → coord_x C ≠ [] → coord_y C ≠ [] →
  ∃ r σ' R D,
    fractional_contribution f c σ = (Ok r, σ')
    ∧ heap σ' !! r = Some R
    ∧ resample_value C F = Ok D
    ∧ coord_x R = coord_x F ∧ coord_y R = coord_y F
    ∧ ∀ i j, i < nx F → j < ny F →
        cell R i j = fillna_value (Finite 0%Qc) (num_div (cell F i j) (cell D i j))
        ∧ isnan (cell R i j) = false
        ∧ (isnan (num_div (cell F i j) (cell D i j)) = true → cell R i j = Finite 0%Qc)
        ∧ (cell F i j = NaN → cell R i j = Finite 0%Qc)
        ∧ (∀ q, cell F i j = Finite q → q ≠ 0%Qc → cell D i j = Finite 0%Qc →
                isinf (cell R i j) = true).
Proof.
  intros Hf Hc Hwf _ Hnx Hny Hcx Hcy.
  pose proof (fractional_contribution_computes σ f c F C Hf Hc Hwf) as Hcomp.
  destruct (resample_value_ok C F Hwf Hnx Hny Hcx Hcy)
    as (D0 & _ & HD & HwD0 & Hx0 & Hy0).
  assert (wf_grid (perimeter_filled D0)) as HwD
    by (apply wf_perimeter_filled; [done|unfold nx in *; rewrite Hx0; lia]).
  unfold fraction_value in Hcomp. rewrite HD in Hcomp.
  cbn [mbind result_bind computes] in Hcomp.
  destruct Hcomp as (r & σ' & Hrun & _ & Hr).
  eexists r, σ', _, (perimeter_filled D0).
  split; [done|]. split; [done|]. split; [done|]. split; [done|]. split; [done|].
  intros i j Hi Hj.
  assert (cell (fillna (elementwise num_div F (perimeter_filled D0)) (Finite 0%Qc)) i j
          = fillna_value (Finite 0%Qc)
              (num_div (cell F i j) (cell (perimeter_filled D0) i j))) as Hcell.
  { rewrite cell_fillna by auto with grid.
    by rewrite cell_elementwise. }
  rewrite Hcell. split; [done|]. split; [by apply fillna_value_not_nan|].
  split; [|split].
  - unfold fillna_value. by intros ->.
  - intros ->. by rewrite num_div_nan_l.
  - intros q -> Hq ->. cbn [num_div]. rewrite (decide_True (P := (0 = 0)%Qc)) by done.
    rewrite (decide_False (P := (q = 0)%Qc)) by done. unfold inf_like. by case_decide.
Qed.

(** ** The downscaling pipeline *)

Lemma computes_bind_raise (m : M ref) (k : ref → M ref) σ e σ' :
  m σ = (Raise e, σ') → computes (m ≫= k) σ (Raise e).
Proof. intros Hm. simpl. exists σ'. by rewrite bind_run, Hm. Qed.

(** The code computes the pipeline on values, step for step, errors included:
    alignment comes first, then aggregation, allocation, resampling and the
    product. *)
Lemma downscale_coarse_emissions_pipeline σ f c F C pf pc k agg :
  heap σ !! f = Some F → heap σ !! c = Some C → wf_grid F →
  computes (downscale_coarse_emissions f c pf pc k agg) σ
           (pipeline_value F C pf pc k agg).
Proof.
  intros Hf Hc Hwf. unfold downscale_coarse_emissions, pipeline_value.
  (* align *)
  pose proof (align_coordinates_run σ c C pc pf Hc) as H1.
  destruct (aligned_value C pc pf) as [C'|e]; [|by eapply computes_bind_raise].
  cbn [mbind result_bind]. set (σ1 := mkState _ _) in H1.
  assert (heap σ `prefix_of` heap σ1) as P1 by (by apply prefix_app_r).
  assert (heap σ1 !! S (length (heap σ)) = Some C') as Hc1.
  { simpl. rewrite lookup_app_r by lia.
    by replace (S (length (heap σ)) - length (heap σ)) with 1 by lia. }
  assert (heap σ1 !! f = Some F) as Hf1 by (by eapply prefix_lookup_Some).
  (* aggregate *)
  pose proof (coarsen_run σ1 f F k agg Hf1) as H2.
  fold (coarsen_finescale_emissions f k agg) in H2.
  destruct (coarsen_reduce F k agg) as [A|e]; cycle 1.
  { cbn [computes]. exists σ1. by rewrite bind_run, H1, bind_run, H2. }
  cbn [mbind result_bind]. set (σ2 := mkState _ _) in H2.
  assert (heap σ1 `prefix_of` heap σ2) as P2 by (by apply prefix_app_r).
  assert (heap σ2 !! length (heap σ1) = Some A) as Ha2 by apply lookup_last.
  assert (heap σ2 !! f = Some F) as Hf2 by (by eapply prefix_lookup_Some).
  assert (heap σ2 !! S (length (heap σ)) = Some C') as Hc2
    by (by eapply prefix_lookup_Some).
  (* allocate *)
  pose proof (fractional_contribution_computes σ2 f _ F A Hf2 Ha2 Hwf) as H3.
  destruct (fraction_value F A) as [fr|e] eqn:Efr; cycle 1.
  { cbn [computes] in *. destruct H3 as [σ3 H3]. exists σ3.
    by rewrite bind_run, H1, bind_run, H2, bind_run, H3. }
  cbn [mbind result_bind]. cbn [computes] in H3. destruct H3 as (r3 & σ3 & H3 & P3 & Hr3).
  destruct (fraction_value_wf F A fr Hwf Efr) as (Hwfr & Hxfr & Hyfr).
  assert (heap σ3 !! f = Some F) as Hf3 by (by eapply prefix_lookup_Some).
  assert (heap σ3 !! S (length (heap σ)) = Some C') as Hc3
    by (by eapply prefix_lookup_Some).
  (* resample and combine *)
  destruct (resample_bind σ3 _ f C' F (λ nn, mul r3 nn) Hc3 Hf3 Hwf)
    as [(D & HD & HwD & Hx & Hy & H4)|(e & σ4 & HD & H4)];
    rewrite HD; cbn [mbind result_bind computes]; cycle 1.
  { exists σ4. by rewrite bind_run, H1, bind_run, H2, bind_run, H3. }
  cbv beta in H4. eexists _, _. split.
  { rewrite bind_run, H1, bind_run, H2, bind_run, H3, H4.
    set (σ4 := mkState _ _).
    assert (heap σ4 !! r3 = Some fr) as Hr4 by (by apply lookup_app_l_Some).
    assert (heap σ4 !! length (heap σ3) = Some D) as HD4 by apply lookup_last.
    unfold mul. rewrite (binary_run num_mul σ4 r3 _ fr D Hr4 HD4).
    rewrite (binary_op_elementwise num_mul fr D Hwfr HwD) by congruence.
    reflexivity. }
  simpl. split; [|apply lookup_last].
  rewrite <- app_assoc. apply prefix_app_r.
  etrans; [exact P1|]. etrans; [exact P2|]. exact P3.
Qed.

Lemma coarsen_reduce_coords F k agg A :
  (0 < k)%Z → 0 < nx F → 0 < ny F →
  nx F `mod` Z.to_nat k = 0 → ny F `mod` Z.to_nat k = 0 →
  coarsen_reduce F k agg = Ok A → coord_x A ≠ [] ∧ coord_y A ≠ [].
Proof.
  intros Hk Hnx Hny Hx Hy. rewrite (coarsen_reduce_exact F k agg Hk Hx Hy).
  intros [= <-]. cbn [coord_x coord_y]. unfold nx, ny in *.
  pose proof (exact_multiple _ (Z.to_nat k) ltac:(lia) Hx).
  pose proof (exact_multiple _ (Z.to_nat k) ltac:(lia) Hy).
  split; intros Hnil; apply (f_equal length) in Hnil;
    rewrite length_fmap, blocks_length in Hnil; simpl in Hnil; nia.
Qed.

(** C1: [downscale_coarse_emissions] computes, in this order, the alignment
    of the coarse grid into the false origin of the fine one, the aggregate of
    the fine grid, the fractional contribution of the fine grid to that
    aggregate, and the nearest-neighbour resampling of the aligned coarse grid
    with its perimeter fill; errors included, the first failing step decides.
    For compatible projections and a fine grid whose lengths are multiples of
    the odd factor, every step is defined and the value returned is exactly the
    cell-by-cell product of the fractional contribution and the resampled coarse
    grid, on the grid of the fine array; the inputs are left as they were. *)
Theorem downscale_coarse_emissions_product σ f c F C pf pc k agg :
  heap σ !! f = Some F → heap σ !! c = Some C → wf_grid F → wf_grid C →
  computes (downscale_coarse_emissions f c pf pc k agg) σ
           (pipeline_value F C pf pc k agg)
  ∧ ∀ fx fy cx cy,
      compatible pc pf → has_offsets pf fx fy → has_offsets pc cx cy →
      (0 < k)%Z → Z.odd k = true →
      nx F `mod` Z.to_nat k = 0 → ny F `mod` Z.to_nat k = 0 →
      2 ≤ nx F → 2 ≤ ny F → coord_x C ≠ [] → coord_y C ≠ [] →
      ∃ r σ' A fr nn,
        downscale_coarse_emissions f c pf pc k agg σ = (Ok r, σ')
        ∧ coarsen_reduce F k agg = Ok A
        ∧ fraction_value F A = Ok fr
        ∧ resample_value (shifted C (fx - cx) (fy - cy)) F = Ok nn
        ∧ heap σ' !! r = Some (elementwise num_mul fr nn)
        ∧ coord_x (elementwise num_mul fr nn) = coord_x F
        ∧ coord_y (elementwise num_mul fr nn) = coord_y F
        ∧ (∀ i j, i < nx F → j < ny F →
             cell (elementwise num_mul fr nn) i j
             = num_mul (cell fr i j) (cell nn i j))
        ∧ heap σ `prefix_of` heap σ'.
Proof.
  intros Hf Hc Hwf HwC.
  pose proof (downscale_coarse_emissions_pipeline σ f c F C pf pc k agg Hf Hc Hwf)
    as Hpipe.
  split; [exact Hpipe|].
  intros fx fy cx cy Hcompat Hof Hoc Hk _ Hx Hy Hnx Hny HCx HCy.
  unfold pipeline_value in Hpipe.
  rewrite (aligned_value_compatible C pc pf cx cy fx fy) in Hpipe by done.
  cbn [mbind result_bind] in Hpipe.
  rewrite (coarsen_reduce_exact F k agg Hk Hx Hy) in Hpipe.
  cbn [mbind result_bind] in Hpipe.
  set (A := mkDataArray _ _ _) in Hpipe.
  assert (coarsen_reduce F k agg = Ok A) as HA by (by apply coarsen_reduce_exact).
  destruct (coarsen_reduce_coords F k agg A) as [HAx HAy]; try done; try lia.
  destruct (resample_value_ok A F Hwf Hnx Hny HAx HAy)
    as (D0 & _ & HD & HwD0 & Hx0 & Hy0).
  assert (fraction_value F A
          = Ok (fillna (elementwise num_div F (perimeter_filled D0)) (Finite 0%Qc)))
    as Hfr by (unfold fraction_value; by rewrite HD).
  destruct (fraction_value_wf F A _ Hwf Hfr) as (Hwfr & Hxfr & Hyfr).
  destruct (resample_value_ok (shifted C (fx - cx) (fy - cy)) F Hwf Hnx Hny)
    as (N0 & _ & HN & HwN0 & HxN & HyN).
  { simpl. by destruct (coord_x C). }
  { simpl. by destruct (coord_y C). }
  rewrite Hfr in Hpipe. cbn [mbind result_bind] in Hpipe.
  rewrite HN in Hpipe. cbn [mbind result_bind computes] in Hpipe.
  destruct Hpipe as (r & σ' & Hrun & Hpre & Hr).
  assert (wf_grid (perimeter_filled N0)) as HwN
    by (apply wf_perimeter_filled; [done|unfold nx in *; rewrite HxN; lia]).
  eexists r, σ', A, _, _.
  split; [done|]. split; [done|]. split; [done|]. split; [done|]. split; [done|].
  split; [done|]. split; [done|]. split; [|done].
  intros i j Hi Hj. unfold nx, ny in *.
  apply cell_elementwise; try done; simpl; unfold nx, ny; congruence.
Qed.

(** ** The variable driver *)

Lemma dataset_getitem_Some (ds : Dataset) (var : string) (v : variable) :
  dict_lookup (data_vars ds) var = Some v →
  ∃ o, dataset_getitem ds var = Ok o.
Proof. intros Hv. unfold dataset_getitem, dict_getitem. rewrite Hv. by eexists. Qed.

(** The call made by [map_downscale] names its arguments [da_ref],
    [da_target], [proj_ref] and [proj_target], none of which is a parameter of
    [downscale_coarse_emissions]: binding fails on the first of them. *)
Lemma map_downscale_raises var ds_ref ds_target p_ref p_target k σ v1 v2 :
  dict_lookup (data_vars ds_ref) var = Some v1 →
  dict_lookup (data_vars ds_target) var = Some v2 →
  map_downscale var ds_ref ds_target p_ref p_target k σ
  = (Raise (TypeError (UnexpectedKeyword "downscale_coarse_emissions" "da_ref")), σ).
Proof.
  intros H1 H2. unfold map_downscale.
  destruct (dataset_getitem_Some _ _ _ H1) as [o1 ->].
  destruct (dataset_getitem_Some _ _ _ H2) as [o2 ->].
  reflexivity.
Qed.

(** C2: the variable driver computes the two projections once, before the
    loop, but its first call of the pipeline already fails: for every working
    set with at least one variable (present in both datasets) the run aborts
    with a [TypeError] and no mapping is returned.  Only the empty working set
    returns a (empty) mapping. *)
Theorem downscale_vars_raises_type_error σ ds_ref ds_target k progress
    vars var rest p_ref p_target v1 v2 :
  get_cmaq_projection ds_ref "lambert" = Ok p_ref →
  get_cmaq_projection ds_target "lambert" = Ok p_target →
  progress vars = var :: rest →
  dict_lookup (data_vars ds_ref) var = Some v1 →
  dict_lookup (data_vars ds_target) var = Some v2 →
  downscale_vars vars ds_ref ds_target k progress σ
  = (Raise (TypeError (UnexpectedKeyword "downscale_coarse_emissions" "da_ref")), σ).
Proof.
  intros Hp1 Hp2 Hvars H1 H2. unfold downscale_vars.
  rewrite Hp1, Hp2, Hvars.
  rewrite bind_run, lift_run, bind_run, lift_run.
  cbn [dict_comprehension].
  by rewrite bind_run, (map_downscale_raises var _ _ _ _ _ _ v1 v2).
Qed.

Lemma downscale_vars_empty σ ds_ref ds_target k p_ref p_target :
  get_cmaq_projection ds_ref "lambert" = Ok p_ref →
  get_cmaq_projection ds_target "lambert" = Ok p_target →
  downscale_vars [] ds_ref ds_target k (λ x, x) σ = (Ok [], σ).
Proof. intros Hp1 Hp2. unfold downscale_vars. by rewrite Hp1, Hp2. Qed.

(** ** The grid factor on the command line *)

Lemma parse_args_even cl :
  Z.even (gridfactor (argparse_parse_args cl)) = true →
  parse_args cl
  = Raise (ValueError (NotAnOddInteger (gridfactor (argparse_parse_args cl)))).
Proof.
  intros He. unfold parse_args. rewrite decide_True; [done|].
  rewrite Zeven_mod in He. by apply Z.eqb_eq.
Qed.

Lemma parse_args_odd cl :
  Z.odd (gridfactor (argparse_parse_args cl)) = true →
  parse_args cl = Ok (argparse_parse_args cl).
Proof.
  intros Ho. unfold parse_args. rewrite decide_False; [done|].
  rewrite Zodd_mod in Ho. apply Z.eqb_eq in Ho. lia.
Qed.

(** C3 (as the code has it): an even grid factor, zero and the negative even
    values included, makes [main] raise before it opens any file, allocates any
    array or assigns anything: the state is untouched.  An odd grid factor,
    negative ones included, passes the check of [parse_args]. *)
Theorem main_rejects_even_grid_factor fs cl σ :
  (Z.even (gridfactor (argparse_parse_args cl)) = true →
   main fs cl σ
   = (Raise (ValueError (NotAnOddInteger (gridfactor (argparse_parse_args cl)))), σ))
  ∧ (Z.odd (gridfactor (argparse_parse_args cl)) = true →
     parse_args cl = Ok (argparse_parse_args cl)).
Proof.
  split.
  - intros He. unfold main. by rewrite bind_run, lift_run, parse_args_even.
  - apply parse_args_odd.
Qed.

(** C3, counterexample: the grid factor -3 is not a positive odd integer, yet
    it is accepted: [main] goes on to open the fine-scale file. *)
Lemma main_accepts_negative_odd_factor :
  ¬ (0 < -3)%Z
  ∧ parse_args (command_line (-3)) = Ok (argparse_parse_args (command_line (-3)))
  ∧ main [] (command_line (-3)) empty_state
    = (Raise (FileNotFoundError "fine.ncf"), mkState [] [EvOpen "fine.ncf"]).
Proof. split; [lia|]. split; reflexivity. Qed.

(** ** Zero-mass coarse cells *)

(** C7: the 3 by 3 block at the origin of [fine_signed] holds 1, -1 and
    zeros, so its aggregate is exactly 0; the fractions returned for the two
    nonzero cells of that block are the infinities, not 0 (the cells holding 0
    get 0). *)
Theorem fractional_contribution_zero_mass_infinite :
  let out := (a ← coarsen_finescale_emissions 0 3 np_sum;
              r ← fractional_contribution 0 a;
              mret (a, r)) (state_of [fine_signed]) in
  out.1 = Ok (1, 4)
  ∧ cell_at out.2 1 0 0 = Some (Finite 0%Qc)
  ∧ cell_at out.2 4 0 0 = Some PosInf
  ∧ cell_at out.2 4 0 1 = Some NegInf
  ∧ cell_at out.2 4 1 1 = Some (Finite 0%Qc)
  ∧ cell_at out.2 4 4 4 = Some (Finite (1 / qz 9)%Qc).
Proof.
  cbv zeta. split; [by vm_compute|]. repeat split; by_compute.
Qed.

(** The end-to-end example: the 9 by 9 grid of ones against the 3 by 3 coarse
    grid carrying 9 on its diagonal, factor 3: every fine cell of a coarse cell
    carrying 9 gets 1, every other fine cell gets 0. *)
Example end_to_end_example :
  let out := downscale_coarse_emissions 0 1 proj_ref proj_ref 3 np_sum
               (state_of [fine_ones; coarse_diag]) in
  out.1 = Ok 9
  ∧ (heap out.2 !! 9
     = Some (grid_of 0 1 9 9 (λ i j, if decide (i / 3 = j / 3) then Finite 1%Qc
                                     else Finite 0%Qc)))
  ∧ take 2 (heap out.2) = [fine_ones; coarse_diag].
Proof. cbv zeta. split; [by vm_compute|]. split; by_compute. Qed.

(** ** Zero-mass coarse cells of a grid without negative values *)

Lemma np_sum_nonneg (l : list num) :
  Forall nonneg l → nonneg (np_sum l).
Proof.
  induction 1 as [|v l Hv _ IH]; [done|].
  rewrite np_sum_cons. destruct v as [q| | |]; try done.
  destruct (np_sum l) as [s| | |]; try done. simpl in *.
  by apply Qcplus_nonneg_nonneg.
Qed.

Lemma np_sum_nonneg_zero (l : list num) :
  Forall nonneg l → np_sum l = Finite 0%Qc → Forall (λ v, v = Finite 0%Qc) l.
Proof.
  induction 1 as [|v l Hv Hl IH]; [done|].
  rewrite np_sum_cons. pose proof (np_sum_nonneg l Hl) as Hs.
  destruct v as [q| | |]; try done.
  destruct (np_sum l) as [s| | |]; try done. simpl in *. intros Hqs.
  apply (f_equal (λ v, match v with Finite x => x | _ => 0%Qc end)) in Hqs.
  assert (q = 0%Qc) as ->.
  { destruct (Qcle_lt_or_eq _ _ Hv) as [Hpos|<-]; [|done].
    pose proof (Qcplus_pos_nonneg q s Hpos Hs) as Hlt.
    rewrite Hqs in Hlt. by apply Qclt_not_eq in Hlt. }
  constructor; [done|]. apply IH. f_equal.
  rewrite <- Hqs. ring.
Qed.

Lemma elem_of_block (k : nat) {A} (l : list A) (i : nat) (x : A) :
  0 < k → l !! i = Some x → x ∈ take k (drop (i / k * k) l).
Proof.
  intros Hk Hi. apply elem_of_take. exists (i `mod` k). split.
  - rewrite lookup_drop. rewrite <- Hi. f_equal.
    pose proof (Nat.div_mod_eq i k). lia.
  - apply Nat.mod_upper_bound. lia.
Qed.

Lemma elem_of_block_values (k : nat) (vals : list (list num)) (i j : nat)
    (col : list num) (v : num) :
  0 < k → vals !! i = Some col → col !! j = Some v →
  v ∈ block_values k (take k (drop (i / k * k) vals)) (j / k).
Proof.
  intros Hk Hi Hj. unfold block_values. apply list_elem_of_In, in_concat.
  exists (take k (drop (j / k * k) col)). split; apply list_elem_of_In.
  - apply list_elem_of_fmap. exists col. split; [done|]. by apply elem_of_block.
  - by apply elem_of_block.
Qed.

Lemma coarsen_cell F (k : Z) A (I J : nat) :
  (0 < k)%Z → nx F `mod` Z.to_nat k = 0 → ny F `mod` Z.to_nat k = 0 →
  wf_grid F → coarsen_reduce F k np_sum = Ok A →
  I < nx F / Z.to_nat k → J < ny F / Z.to_nat k →
  cell A I J
  = np_sum (block_values (Z.to_nat k)
              (take (Z.to_nat k) (drop (I * Z.to_nat k) (values F))) J).
Proof.
  intros Hk Hx Hy (_ & _ & Hlen & _).
  rewrite (coarsen_reduce_exact F k np_sum Hk Hx Hy). intros [= <-] HI HJ.
  unfold cell, nx, ny in *. cbn [values].
  rewrite (list_lookup_total_fmap
             (λ cols, (λ J, np_sum (block_values (Z.to_nat k) cols J))
                        <$> seq 0 (length (coord_y F) / Z.to_nat k)))
    by (rewrite blocks_length, Hlen; lia).
  rewrite (list_lookup_total_fmap (λ J, np_sum (block_values (Z.to_nat k) _ J)))
    by (rewrite length_seq; lia).
  rewrite lookup_total_seq_lt by lia. unfold blocks.
  rewrite (list_lookup_total_fmap (λ I, take _ (drop (I * _) _)))
    by (rewrite length_seq, Hlen; lia).
  rewrite lookup_total_seq_lt by (rewrite Hlen; lia). done.
Qed.

Lemma fraction_value_cell F C R D i j :
  wf_grid F → resample_value C F = Ok D → fraction_value F C = Ok R →
  wf_grid D → coord_x D = coord_x F → coord_y D = coord_y F →
  i < nx F → j < ny F →
  cell R i j = fillna_value (Finite 0%Qc) (num_div (cell F i j) (cell D i j)).
Proof.
  intros Hwf HD HR HwD Hx Hy Hi Hj. unfold fraction_value in HR.
  rewrite HD in HR. cbn [mbind result_bind] in HR. injection HR as <-.
  rewrite cell_fillna by auto with grid.
  by rewrite cell_elementwise.
Qed.

Lemma zero_over_anything (d : num) :
  fillna_value (Finite 0%Qc) (num_div (Finite 0%Qc) d) = Finite 0%Qc.
Proof.
  destruct d as [q| | |]; try done. cbn [num_div].
  case_decide as Hq; [by rewrite decide_True|].
  unfold fillna_value. cbn [isnan]. f_equal. field. done.
Qed.

(** On a fine grid whose values are finite and not negative, a coarse cell
    whose sum is exactly 0 gives the fraction 0 to every fine cell of its
    window. *)
Lemma fractional_contribution_zero_mass_nonneg σ f F (k : Z) :
  heap σ !! f = Some F → wf_grid F →
  (0 < k)%Z → nx F `mod` Z.to_nat k = 0 → ny F `mod` Z.to_nat k = 0 →
  2 ≤ nx F → 2 ≤ ny F →
  Forall (Forall nonneg) (values F) →
  ∃ a r σ' A R,
    (a ← coarsen_finescale_emissions f k np_sum;
     r ← fractional_contribution f a;
     mret (a, r)) σ = (Ok (a, r), σ')
    ∧ heap σ' !! a = Some A ∧ heap σ' !! r = Some R
    ∧ ∀ i j, i < nx F → j < ny F →
        cell A (i / Z.to_nat k) (j / Z.to_nat k) = Finite 0%Qc →
        cell R i j = Finite 0%Qc.
Proof.
  intros Hf Hwf Hk Hx Hy Hnx Hny Hpos.
  pose proof (coarsen_run σ f F k np_sum Hf) as H1.
  assert (∃ A, coarsen_reduce F k np_sum = Ok A) as [A HA]
    by (eexists; by apply coarsen_reduce_exact).
  rewrite HA in H1. set (σ1 := mkState _ _) in H1.
  assert (heap σ1 !! f = Some F) as Hf1 by (by apply lookup_app_l_Some).
  assert (heap σ1 !! length (heap σ) = Some A) as Ha1 by apply lookup_last.
  destruct (coarsen_reduce_coords F k np_sum A) as [HAx HAy]; try done; try lia.
  destruct (resample_value_ok A F Hwf Hnx Hny HAx HAy)
    as (D0 & _ & HD & HwD0 & Hx0 & Hy0).
  pose proof (fractional_contribution_computes σ1 f _ F A Hf1 Ha1 Hwf) as H2.
  destruct (fraction_value F A) as [R|e] eqn:HR; cycle 1.
  { unfold fraction_value in HR. by rewrite HD in HR. }
  cbn [computes] in H2. destruct H2 as (r & σ2 & H2 & P2 & Hr).
  exists (length (heap σ)), r, σ2, A, R. split.
  { unfold coarsen_finescale_emissions. by rewrite bind_run, H1, bind_run, H2. }
  split; [by eapply prefix_lookup_Some|]. split; [done|].
  intros i j Hi Hj Hzero.
  assert (wf_grid (perimeter_filled D0)) as HwD
    by (apply wf_perimeter_filled; [done|unfold nx in *; rewrite Hx0; lia]).
  rewrite (fraction_value_cell F A R (perimeter_filled D0) i j) by done.
  assert (cell F i j = Finite 0%Qc) as ->; [|apply zero_over_anything].
  pose proof Hwf as (_ & _ & Hlen & Hcols). unfold nx, ny in *.
  assert (0 < Z.to_nat k) as Hk' by lia.
  pose proof (exact_multiple _ _ Hk' Hx) as Hmx.
  pose proof (exact_multiple _ _ Hk' Hy) as Hmy.
  rewrite (coarsen_cell F k A) in Hzero; try done; cycle 1.
  { apply Nat.Div0.div_lt_upper_bound. unfold nx. lia. }
  { apply Nat.Div0.div_lt_upper_bound. unfold ny. lia. }
  assert (values F !! i = Some (values F !!! i)) as Hcol
    by (apply list_lookup_lookup_total_lt; lia).
  assert (length (values F !!! i) = length (coord_y F)) as Hcl.
  { rewrite Forall_forall in Hcols. apply Hcols. by eapply list_elem_of_lookup_2. }
  assert ((values F !!! i) !! j = Some (cell F i j)) as Hcell
    by (apply list_lookup_lookup_total_lt; lia).
  pose proof (elem_of_block_values (Z.to_nat k) (values F) i j _ _ Hk' Hcol Hcell)
    as Hin.
  apply np_sum_nonneg_zero in Hzero.
  - rewrite Forall_forall in Hzero. by apply Hzero.
  - unfold block_values. apply Forall_concat, Forall_fmap, Forall_forall.
    intros col Hc. unfold compose. apply Forall_take, Forall_drop.
    rewrite Forall_forall in Hpos. apply Hpos.
    apply elem_of_take in Hc as (n & Hn & _). rewrite lookup_drop in Hn.
    by eapply list_elem_of_lookup_2.
Qed.

(** ** The theorems at concrete inputs *)

Lemma downscale_coarse_emissions_product_witness :
  wf_grid fine_ones ∧ wf_grid coarse_diag_moved
  ∧ compatible proj_moved proj_ref
  ∧ has_offsets proj_ref 0%Qc 0%Qc
  ∧ has_offsets proj_moved (qz 1000) (qz (-500))
  ∧ ∃ r σ',
      downscale_coarse_emissions 0 1 proj_ref proj_moved 3 np_sum
        (state_of [fine_ones; coarse_diag_moved]) = (Ok r, σ').
Proof.
  assert (wf_grid fine_ones) as Hwf by by_compute.
  assert (wf_grid coarse_diag_moved) as Hwc by by_compute.
  assert (compatible proj_moved proj_ref) as Hc by by_compute.
  assert (has_offsets proj_ref 0%Qc 0%Qc) as Hof by (split; by_compute).
  assert (has_offsets proj_moved (qz 1000) (qz (-500))) as Hoc by (split; by_compute).
  do 5 (split; [assumption|]).
  destruct (downscale_coarse_emissions_product
              (state_of [fine_ones; coarse_diag_moved]) 0 1
              fine_ones coarse_diag_moved proj_ref proj_moved 3 np_sum
              eq_refl eq_refl Hwf Hwc) as [_ Hprod].
  assert (2 ≤ nx fine_ones) as Hnx by (vm_compute; lia).
  assert (2 ≤ ny fine_ones) as Hny by (vm_compute; lia).
  assert (coord_x coarse_diag_moved ≠ []) as Hcx by discriminate.
  assert (coord_y coarse_diag_moved ≠ []) as Hcy by discriminate.
  destruct (Hprod 0%Qc 0%Qc (qz 1000) (qz (-500)) Hc Hof Hoc
              eq_refl eq_refl eq_refl eq_refl Hnx Hny Hcx Hcy)
    as (r & σ' & A & fr & nn & Hrun & _).
  by exists r, σ'.
Defined.

Lemma downscale_vars_raises_type_error_witness :
  downscale_vars ["NO"] dataset_fine dataset_coarse 3 tqdm
    (state_of [fine_ones; coarse_diag])
  = (Raise (TypeError (UnexpectedKeyword "downscale_coarse_emissions" "da_ref")),
     state_of [fine_ones; coarse_diag]).
Proof.
  apply (downscale_vars_raises_type_error _ dataset_fine dataset_coarse 3 tqdm
           ["NO"] "NO" [] proj_ref proj_ref (Gridded 0) (Gridded 1));
    try reflexivity; by_compute.
Defined.

Lemma main_rejects_even_grid_factor_witness :
  Z.even 4 = true
  ∧ main [] (command_line 4) empty_state
    = (Raise (ValueError (NotAnOddInteger 4)), empty_state)
  ∧ Z.odd (-3) = true
  ∧ parse_args (command_line (-3)) = Ok (argparse_parse_args (command_line (-3))).
Proof.
  split; [reflexivity|]. split.
  - apply (proj1 (main_rejects_even_grid_factor [] (command_line 4) empty_state)).
    reflexivity.
  - split; [reflexivity|].
    apply (proj2 (main_rejects_even_grid_factor [] (command_line (-3)) empty_state)).
    reflexivity.
Defined.

Lemma align_coordinates_shifts_witness :
  compatible proj_moved proj_ref
  ∧ ∃ r σ' g',
      align_coordinates 0 proj_moved proj_ref (state_of [coarse_diag_moved])
      = (Ok r, σ')
      ∧ heap σ' !! r = Some g'
      ∧ coord_x g' = (λ x, x + (0 - qz 1000))%Qc <$> coord_x coarse_diag_moved
      ∧ heap σ' !! 0 = Some coarse_diag_moved.
Proof.
  assert (compatible proj_moved proj_ref) as Hc by by_compute.
  split; [assumption|].
  destruct (align_coordinates_shifts (state_of [coarse_diag_moved]) 0
              coarse_diag_moved proj_moved proj_ref
              (qz 1000) (qz (-500)) 0%Qc 0%Qc eq_refl Hc)
    as (r & σ' & g' & Hrun & Hr & _ & Hx & _ & _ & Hin & _);
    try (split; by_compute).
  by exists r, σ', g'.
Defined.

Lemma coarsen_conserves_total_witness :
  wf_grid fine_ones ∧ 9 `mod` Z.to_nat 3 = 0
  ∧ ∃ r σ' A,
      coarsen_finescale_emissions 0 3 np_sum (state_of [fine_ones]) = (Ok r, σ')
      ∧ heap σ' !! r = Some A
      ∧ total A = total fine_ones.
Proof.
  assert (wf_grid fine_ones) as Hwf by by_compute.
  split; [assumption|]. split; [reflexivity|].
  apply (coarsen_conserves_total (state_of [fine_ones]) 0 fine_ones 3 eq_refl Hwf);
    try reflexivity.
Defined.

Lemma fill_perimeter_x_then_y_witness :
  wf_grid grid_2x2 ∧ 2 ≤ nx grid_2x2 ∧ 2 ≤ ny grid_2x2
  ∧ ∃ σ',
      _fill_perimeter 0 (state_of [grid_2x2]) = (Ok 0, σ')
      ∧ heap σ' = [perimeter_filled grid_2x2]
      ∧ trace σ' = [EvAssign 0 X 0; EvAssign 0 X 1; EvAssign 0 Y 0; EvAssign 0 Y 1].
Proof.
  assert (wf_grid grid_2x2) as Hwf by by_compute.
  assert (2 ≤ nx grid_2x2) as Hnx by (vm_compute; lia).
  assert (2 ≤ ny grid_2x2) as Hny by (vm_compute; lia).
  do 3 (split; [assumption|]).
  destruct (fill_perimeter_x_then_y (state_of [grid_2x2]) 0 grid_2x2
              eq_refl Hwf Hnx Hny)
    as (σ' & new & Hrun & Hheap & Htrace & -> & _).
  exists σ'. split; [exact Hrun|]. split; [exact Hheap|exact Htrace].
Defined.

Lemma fill_perimeter_idempotent_witness :
  wf_grid fine_signed
  ∧ ∃ σ1 σ2,
      _fill_perimeter 0 (state_of [fine_signed]) = (Ok 0, σ1)
      ∧ _fill_perimeter 0 σ1 = (Ok 0, σ2)
      ∧ heap σ2 = heap σ1.
Proof.
  assert (wf_grid fine_signed) as Hwf by by_compute.
  split; [assumption|].
  destruct (fill_perimeter_idempotent (state_of [fine_signed]) 0 fine_signed
              eq_refl Hwf) as (σ1 & σ2 & H1 & H2 & _ & Hheap);
    try (vm_compute; lia).
  by exists σ1, σ2.
Defined.

Lemma fractional_contribution_fills_nan_witness :
  wf_grid fine_nan ∧ wf_grid coarse_2x2
  ∧ cell fine_nan 4 2 = NaN
  ∧ ∃ r σ' R,
      fractional_contribution 0 1 (state_of [fine_nan; coarse_2x2]) = (Ok r, σ')
      ∧ heap σ' !! r = Some R
      ∧ cell R 4 2 = Finite 0%Qc.
Proof.
  assert (wf_grid fine_nan) as Hwf by by_compute.
  assert (wf_grid coarse_2x2) as Hwc by by_compute.
  assert (cell fine_nan 4 2 = NaN) as Hnan by reflexivity.
  do 3 (split; [assumption|]).
  destruct (fractional_contribution_fills_nan (state_of [fine_nan; coarse_2x2]) 0 1
              fine_nan coarse_2x2 eq_refl eq_refl Hwf Hwc)
    as (r & σ' & R & D & Hrun & Hr & _ & _ & _ & Hcells);
    try (vm_compute; lia); try discriminate.
  exists r, σ', R. split; [exact Hrun|]. split; [exact Hr|].
  destruct (Hcells 4 2) as (_ & _ & _ & H & _); try (vm_compute; lia).
  exact (H Hnan).
Defined.
